(** * Proxylab: capture store, redaction engine, target resolver and replay

    A shallow embedding of the server side of proxylab
    (captureStore.ts, redaction.ts, index.ts, types.ts) and the properties
    of its capture-and-replay engine.

    Conventions of the embedding.
    - A JavaScript string is a [string]; the only case mapping the code
      relies on is that of ASCII letters (HTTP method names, the
      case-insensitive flag of the redaction patterns).
    - [undefined] and [null] of an optional field are [None].
    - A plain object used as a string-keyed dictionary (header maps) is a
      [gmap string _]: own enumerable properties with ordinary names.
    - A value produced by [JSON.parse] is a [json] tree whose objects list
      their properties in [Object.entries] order.
    - A JavaScript number is an IEEE 754 value, a [spec_float]; the
      store's capacity is an integer [Z].
    - An exception that leaves a function is an explicit outcome
      ([Thrown], or [None] where nothing else is observable); a loop that
      never ends is [None] of the fuel-indexed loop for every fuel. *)

From Stdlib Require Import ZArith Lia SpecFloat Ascii String List.
From stdpp Require Import base option list strings gmap.

Set Warnings "-register-all".
Local Open Scope Z_scope.
Local Open Scope string_scope.
Local Open Scope list_scope.

(** ** JavaScript strings *)

Module JsString.

Definition lower_ascii (c : ascii) : ascii :=
  let n := nat_of_ascii c in
  if (Nat.leb 65 n && Nat.leb n 90)%bool then ascii_of_nat (n + 32) else c.

Definition upper_ascii (c : ascii) : ascii :=
  let n := nat_of_ascii c in
  if (Nat.leb 97 n && Nat.leb n 122)%bool then ascii_of_nat (n - 32) else c.

Fixpoint map_ascii (f : ascii -> ascii) (s : string) : string :=
  match s with
  | EmptyString => EmptyString
  | String c r => String (f c) (map_ascii f r)
  end.

Definition toLowerCase : string -> string := map_ascii lower_ascii.
Definition toUpperCase : string -> string := map_ascii upper_ascii.

(** [s.startsWith(p)] *)
Fixpoint startsWith (p s : string) : bool :=
  match p, s with
  | EmptyString, _ => true
  | String a p', String b s' => if Ascii.eqb a b then startsWith p' s' else false
  | String _ _, EmptyString => false
  end.

(** [s.includes(p)] *)
Fixpoint includes (p s : string) : bool :=
  startsWith p s ||
  match s with
  | EmptyString => false
  | String _ s' => includes p s'
  end.

(** The last character of [s], if any. *)
Fixpoint last_char (s : string) : option ascii :=
  match s with
  | EmptyString => None
  | String c EmptyString => Some c
  | String _ r => last_char r
  end.

(** [s.endsWith(String c "")] *)
Definition endsWithChar (c : ascii) (s : string) : bool :=
  match last_char s with
  | Some d => Ascii.eqb c d
  | None => false
  end.

(** [s.slice(0, -1)] *)
Fixpoint dropLast (s : string) : string :=
  match s with
  | EmptyString => EmptyString
  | String _ EmptyString => EmptyString
  | String c r => String c (dropLast r)
  end.

(** A string is falsy exactly when it is empty. *)
Definition truthy (s : string) : bool :=
  match s with EmptyString => false | _ => true end.

End JsString.

(** ** Values produced by [JSON.parse] *)

(** The number 1. *)
Definition one : spec_float := S754_finite false 1 0.

Inductive json : Type :=
| JNull
| JBool (b : bool)
| JNumber (x : spec_float)
| JString (s : string)
| JArray (items : list json)
| JObject (fields : list (string * json)).

(** First binding of a key in an association list. *)
Fixpoint assoc {A : Type} (k : string) (l : list (string * A)) : option A :=
  match l with
  | [] => None
  | (k', v) :: r => if String.eqb k k' then Some v else assoc k r
  end.

(** [v.k] for a non-nullish [v] and a property name [k] that is neither an
    array index nor a built-in member ([captures], [record], [replay],
    [id]): [None] is [undefined]. *)
Definition prop (v : json) (k : string) : option json :=
  match v with
  | JObject fields => assoc k fields
  | _ => None
  end.

(** [x.k] where [x] may be [undefined] ([None]) or [null]: the outer [None]
    is the TypeError of reading a property of a nullish value. *)
Definition member (x : option json) (k : string) : option (option json) :=
  match x with
  | None | Some JNull => None
  | Some v => Some (prop v k)
  end.

(** Truthiness of a parsed value. *)
Definition json_truthy (v : json) : bool :=
  match v with
  | JNull => false
  | JBool b => b
  | JNumber (S754_zero _) | JNumber S754_nan => false
  | JNumber _ => true
  | JString s => JsString.truthy s
  | JArray _ | JObject _ => true
  end.

(** ** Data shapes (types.ts) *)

Record CapturePayload : Type := mkPayload {
  pl_headers : gmap string string;
  pl_body : option string;
  pl_size : Z
}.

Record CaptureRecord : Type := mkRecord {
  rec_id : string;
  rec_createdAt : string;
  rec_replayOf : option string;
  rec_method : string;
  rec_targetUrl : string;
  rec_path : string;
  rec_statusCode : Z;
  rec_durationMs : Z;
  rec_request : CapturePayload;
  rec_response : CapturePayload
}.

Record ReplaySource : Type := mkReplay {
  src_id : string;
  src_method : string;
  src_targetUrl : string;
  src_path : string;
  src_headers : gmap string string;
  src_body : option string
}.

(** ** The capture store (captureStore.ts) *)

(** [interface StoredCapture] *)
Record StoredCapture : Type := mkEntry {
  record : CaptureRecord;
  replay : ReplaySource
}.

(** A key of the [byId] map. The map of the model holds the string keys;
    a key that is not a string is reachable by no string id. *)
Inductive MapKey : Type :=
| KeyString (s : string)
| KeyOther.

(** What the store does with an element of its [captures] array. The
    class has two instances: the pairs [add] builds from its typed
    arguments, and the elements of a parsed file, which [hydrate] stores
    as they are, whatever their shape. In the results, the outer [None] is
    a read that throws and the inner [None] is [undefined]. *)
Class EntryShape (E : Type) : Type := {
  RecordT : Type;
  ReplayT : Type;
  entry_record : E -> option (option RecordT);   (* [entry.record] *)
  entry_replay : E -> option (option ReplayT);   (* [entry.replay] *)
  entry_key : E -> option MapKey;                (* [entry.record.id] *)
  entry_truthy : E -> bool                       (* [if (entry)] *)
}.

#[export] Instance typed_entry : EntryShape StoredCapture := {|
  RecordT := CaptureRecord;
  ReplayT := ReplaySource;
  entry_record e := Some (Some (record e));
  entry_replay e := Some (Some (replay e));
  entry_key e := Some (KeyString (rec_id (record e)));
  entry_truthy _ := true
|}.

#[export] Instance parsed_entry : EntryShape json := {|
  RecordT := json;
  ReplayT := json;
  entry_record v := member (Some v) "record";
  entry_replay v := member (Some v) "replay";
  entry_key v :=
    r ← member (Some v) "record";
    i ← member r "id";
    Some (match i with Some (JString s) => KeyString s | _ => KeyOther end);
  entry_truthy := json_truthy
|}.

Record Store (E : Type) : Type := mkStore {
  captures : list E;
  byId : gmap string E;
  maxCaptures : Z
}.
Arguments mkStore {E} _ _ _.
Arguments captures {E} _.
Arguments byId {E} _.
Arguments maxCaptures {E} _.

(** How a method that mutates the store ends. The store it leaves behind
    is returned in both cases. *)
Inductive completion : Type := Normal | Thrown.

Definition default_maxCaptures : Z := 500.

(** [new InMemoryCaptureStore(maxCaptures)] with its default parameter:
    an omitted argument is 500. *)
Definition InMemoryCaptureStore {E : Type} (maxCaptures : option Z) : Store E :=
  mkStore [] ∅ (default default_maxCaptures maxCaptures).

Section StoreMethods.

Context {E : Type} `{EntryShape E}.

Definition map_set (k : MapKey) (e : E) (m : gmap string E) : gmap string E :=
  match k with
  | KeyString s => <[s := e]> m
  | KeyOther => m
  end.

Definition map_delete (k : MapKey) (m : gmap string E) : gmap string E :=
  match k with
  | KeyString s => delete s m
  | KeyOther => m
  end.

(** [captures.pop()]: the array without its last element, and that
    element. *)
Definition pop (l : list E) : list E * option E := (removelast l, last l).

(** The loop of [prune]. One unit of fuel is one evaluation of the loop
    condition; [None] is fuel exhausted. *)
Fixpoint prune_loop (fuel : nat) (s : Store E) : option (completion * Store E) :=
  match fuel with
  | O => None
  | S fuel' =>
      if Z.of_nat (length (captures s)) >? maxCaptures s then
        let '(rest, removed) := pop (captures s) in
        let s1 := mkStore rest (byId s) (maxCaptures s) in
        match removed with
        | Some e =>
            if entry_truthy e then
              match entry_key e with
              | Some k =>
                  prune_loop fuel' (mkStore rest (map_delete k (byId s)) (maxCaptures s))
              | None => Some (Thrown, s1)
              end
            else prune_loop fuel' s1
        | None => prune_loop fuel' s1
        end
      else Some (Normal, s)
  end.

(** [prune()]: the loop, with fuel for every element and the final test.
    [prune_loop_more] and [prune_negative_diverges] below justify reading
    [None] as a loop that does not end. *)
Definition prune (s : Store E) : option (completion * Store E) :=
  prune_loop (S (length (captures s))) s.

(** [list()]; the outer [None] when reading [entry.record] throws. *)
Definition list_records (s : Store E) : option (list (option RecordT)) :=
  mapM entry_record (captures s).

(** [byId.get(id)?.record] *)
Definition get (id : string) (s : Store E) : option RecordT :=
  match byId s !! id with
  | None => None
  | Some e => match entry_record e with Some r => r | None => None end
  end.

(** [byId.get(id)?.replay] *)
Definition getReplaySource (id : string) (s : Store E) : option ReplayT :=
  match byId s !! id with
  | None => None
  | Some e => match entry_replay e with Some r => r | None => None end
  end.

(** The loop of [hydrate]: each element is pushed before its key is
    read, so an element whose key cannot be read stays in the array when
    the loop is left by the exception. *)
Fixpoint hydrate_loop (entries : list E) (s : Store E) : completion * Store E :=
  match entries with
  | [] => (Normal, s)
  | e :: rest =>
      let pushed := captures s ++ [e] in
      match entry_key e with
      | Some k => hydrate_loop rest (mkStore pushed (map_set k e (byId s)) (maxCaptures s))
      | None => (Thrown, mkStore pushed (byId s) (maxCaptures s))
      end
  end.

(** [hydrate(entries)] *)
Definition hydrate (entries : list E) (s : Store E) : option (completion * Store E) :=
  match hydrate_loop entries s with
  | (Normal, s') => prune s'
  | (Thrown, s') => Some (Thrown, s')
  end.

End StoreMethods.

(** [add(record, replay)] of the in-memory store. *)
Definition add (record : CaptureRecord) (replay : ReplaySource) (s : Store StoredCapture)
    : option (completion * Store StoredCapture) :=
  let entry := mkEntry record replay in
  prune (mkStore (entry :: captures s) (<[rec_id record := entry]> (byId s)) (maxCaptures s)).

(** Several [add] calls in a row, stopping at the first that does not
    return. *)
Fixpoint adds (xs : list (CaptureRecord * ReplaySource)) (s : Store StoredCapture)
    : option (completion * Store StoredCapture) :=
  match xs with
  | [] => Some (Normal, s)
  | (r, p) :: rest =>
      match add r p s with
      | Some (Normal, s') => adds rest s'
      | other => other
      end
  end.

(** *** The file-backed store *)

(** What the constructor finds at [filePath]. *)
Inductive File : Type :=
| Absent
| Unreadable
| Content (raw : string).

Section FileCaptureStore.

(** [JSON.parse]: [None] when it throws a SyntaxError. *)
Variable JSON_parse : string -> option json.

(** [Array.isArray(parsed?.captures) ? parsed.captures : []] *)
Definition persisted_captures (parsed : json) : list json :=
  match parsed with
  | JNull => []
  | _ => match prop parsed "captures" with
         | Some (JArray items) => items
         | _ => []
         end
  end.

(** [load()]: every exception raised inside the [try] block is swallowed
    by the empty [catch], whatever the store holds by then. [None] is a
    [prune] that does not end. The elements of the parsed array are
    stored as they are: nothing checks them against [StoredCapture]. *)
Definition load (file : File) (s : Store json) : option (Store json) :=
  match file with
  | Absent => Some s
  | Unreadable => Some s
  | Content raw =>
      match JSON_parse raw with
      | None => Some s
      | Some parsed => snd <$> hydrate (persisted_captures parsed) s
      end
  end.

(** [new FileCaptureStore(filePath, maxCaptures)], before any [add]. *)
Definition FileCaptureStore (file : File) (maxCaptures : option Z) : option (Store json) :=
  load file (InMemoryCaptureStore maxCaptures).

End FileCaptureStore.

(** ** The redaction engine (redaction.ts) *)

(** The fragment of regular expressions the redaction patterns are
    written in. All of them carry the [i] flag and have lower-case
    literals. *)
Inductive regex : Type :=
| Lit (s : string)
| Class (cs : list ascii)
| Opt (r : regex)
| Seq (r1 r2 : regex)
| Alt (r1 r2 : regex).

(** [s] without its first [n] characters. *)
Fixpoint string_drop (n : nat) (s : string) : string :=
  match n, s with
  | O, _ => s
  | S n', String _ r => string_drop n' r
  | S _, EmptyString => EmptyString
  end.

(** The rests of [s] after each way [r] matches a prefix of it, the
    preferred match first. *)
Fixpoint regex_rests (r : regex) (s : string) : list string :=
  match r with
  | Lit l => if JsString.startsWith l s then [string_drop (String.length l) s] else []
  | Class cs =>
      match s with
      | String c s' => if existsb (Ascii.eqb c) cs then [s'] else []
      | EmptyString => []
      end
  | Opt r1 => regex_rests r1 s ++ [s]
  | Seq r1 r2 => concat (map (regex_rests r2) (regex_rests r1 s))
  | Alt r1 r2 => regex_rests r1 s ++ regex_rests r2 s
  end.

(** A match starting at some position of [s]. *)
Fixpoint regex_search (r : regex) (s : string) : bool :=
  match regex_rests r s with
  | _ :: _ => true
  | [] => match s with
          | EmptyString => false
          | String _ s' => regex_search r s'
          end
  end.

(** [pattern.test(s)] for a pattern with the [i] flag. *)
Definition regex_test_i (r : regex) (s : string) : bool :=
  regex_search r (JsString.toLowerCase s).

Definition REDACTION_TOKEN : string := "[REDACTED]".

(** [api[-_]?key] *)
Definition api_key_regex : regex :=
  Seq (Lit "api") (Seq (Opt (Class ["-"%char; "_"%char])) (Lit "key")).

Definition sensitiveHeaderPatterns : list regex :=
  [Lit "authorization"; Lit "cookie"; Lit "token"; api_key_regex; Lit "secret"].

Definition sensitiveFieldPattern : regex :=
  Alt (Lit "token") (Alt (Lit "secret") (Alt (Lit "password")
    (Alt (Lit "authorization") (Alt api_key_regex
      (Alt (Lit "session") (Lit "cookie")))))).

(** [sensitiveHeaderPatterns.some((pattern) => pattern.test(key))] *)
Definition header_shouldRedact (key : string) : bool :=
  existsb (fun pattern => regex_test_i pattern key) sensitiveHeaderPatterns.

(** [redactHeaders(headers)]: a value of the input is [None] when the
    property is present with the value [undefined]. *)
Definition redactHeaders (headers : gmap string (option string)) : gmap string string :=
  map_imap (fun key value =>
    match value with
    | Some v =>
        if JsString.truthy v
        then Some (if header_shouldRedact key then REDACTION_TOKEN else v)
        else None
    | None => None
    end) headers.

(** [redactJsonObject(value, parentKey)] *)
Fixpoint redactJsonObject (value : json) (parentKey : string) : json :=
  match value with
  | JArray items => JArray (map (fun item => redactJsonObject item parentKey) items)
  | JObject fields =>
      JObject (map (fun entry =>
        match entry with
        | (key, nested) =>
            if regex_test_i sensitiveFieldPattern key
               || regex_test_i sensitiveFieldPattern parentKey
            then (key, JString REDACTION_TOKEN)
            else (key, redactJsonObject nested key)
        end) fields)
  | JString _ =>
      if regex_test_i sensitiveFieldPattern parentKey
      then JString REDACTION_TOKEN else value
  | _ => value
  end.

Section RedactBody.

(** [JSON.parse] ([None]: SyntaxError) and [JSON.stringify(_, null, 2)]. *)
Variable JSON_parse : string -> option json.
Variable JSON_stringify_pretty : json -> string.

(** [redactText]: the two [String.prototype.replace] calls of the
    text-pattern fallback. No property below depends on its result. *)
Variable redactText : string -> string.

(** [typeof contentType === "string" && contentType.includes("application/json")] *)
Definition isJsonContentType (contentType : option string) : bool :=
  match contentType with
  | Some ct => JsString.includes "application/json" ct
  | None => false
  end.

(** [redactBody(body, contentType)]; the result [None] is [null]. *)
Definition redactBody (body contentType : option string) : option string :=
  match body with
  | None => None
  | Some b =>
      if negb (JsString.truthy b) then None
      else if isJsonContentType contentType then
        match JSON_parse b with
        | Some parsed => Some (JSON_stringify_pretty (redactJsonObject parsed ""))
        | None => Some (redactText b)
        end
      else Some (redactText b)
  end.

End RedactBody.

(** ** The server (index.ts) *)

Definition hopByHopHeaders : list string :=
  ["connection"; "content-length"; "host"; "transfer-encoding"; "x-proxylab-target"].

(** [hopByHopHeaders.has(key)] *)
Definition hopByHop_has (key : string) : bool :=
  existsb (String.eqb key) hopByHopHeaders.

(** [joinPath(basePath, suffix)] *)
Definition joinPath (basePath suffix : string) : string :=
  let left :=
    if JsString.endsWithChar "/"%char basePath then JsString.dropLast basePath else basePath in
  let right :=
    if JsString.startsWith "/" suffix then suffix else "/" +:+ suffix in
  if Nat.eqb (String.length left) 0 then right else left +:+ right.

(** A value of an inbound header map: [string | string[] | undefined]. *)
Inductive HeaderValue : Type :=
| HString (s : string)
| HArray (l : list string)
| HUndefined.

(** [value.join(", ")] *)
Fixpoint join_comma (l : list string) : string :=
  match l with
  | [] => ""
  | [x] => x
  | x :: r => x +:+ ", " +:+ join_comma r
  end.

(** [normalizeHeaders(headers)] *)
Definition normalizeHeaders (headers : gmap string HeaderValue) : gmap string string :=
  map_imap (fun key value =>
    if hopByHop_has (JsString.toLowerCase key) then None
    else match value with
         | HString s => Some s
         | HArray (x :: r) => Some (join_comma (x :: r))
         | HArray [] => None
         | HUndefined => None
         end) headers.

(** The body of an inbound request, as the framework hands it over. *)
Inductive RequestBody : Type :=
| BodyUndefined
| BodyText (s : string)
| BodyBuffer (utf8 : string)
| BodyValue (v : json).

(** A [URL] object: what precedes the path, the path, the query
    parameters in order, and the fragment. *)
Record URL : Type := mkURL {
  url_prefix : string;
  url_pathname : string;
  url_searchParams : list (string * string);
  url_hash : string
}.

(** [searchParams.get(name)]: the first value of the name. *)
Definition searchParams_get (name : string) (u : URL) : option string :=
  assoc name (url_searchParams u).

(** The [forEach] of [buildReplaySourceFromRequest]: every parameter but
    [target] is appended to the target's parameters. *)
Definition forward_params (from : URL) (to : URL) : URL :=
  mkURL (url_prefix to) (url_pathname to)
        (url_searchParams to
           ++ filter (fun kv => negb (String.eqb (fst kv) "target")) (url_searchParams from))
        (url_hash to).

Record Request : Type := mkRequest {
  req_method : string;
  req_wildcard : option string;          (* [params["*"]] *)
  req_url : string;
  req_headers : gmap string HeaderValue;
  req_body : RequestBody
}.

(** [overrides.body]: absent, [null], or a string. *)
Inductive BodyOverride : Type :=
| BodyAbsent
| BodyNull
| BodyReplace (s : string).

Record Overrides : Type := mkOverrides {
  ov_method : option string;
  ov_targetUrl : option string;
  ov_headers : option (gmap string string);
  ov_body : BodyOverride
}.

Record ReplayRequest : Type := mkReplayRequest {
  rq_id : option string;
  rq_overrides : option Overrides
}.

(** The second argument of [fetch]. *)
Record FetchInit : Type := mkInit {
  init_method : string;
  init_headers : gmap string string;
  init_body : option string
}.

(** What [proxyToTarget] returns. *)
Record Upstream : Type := mkUpstream {
  up_statusCode : Z;
  up_headers : gmap string string;
  up_body : string
}.

(** The third argument of [withCapture]. *)
Record CaptureResponse : Type := mkCaptureResponse {
  cr_statusCode : Z;
  cr_durationMs : Z;
  cr_headers : gmap string string;
  cr_body : option string;
  cr_replayOf : option string
}.

(** The payload of a reply. *)
Inductive ReplyBody : Type :=
| ErrorBody (message : string)
| ItemBody (item : CaptureRecord)
| TextBody (text : string).

(** How a route handler ends: it sends a reply, or an exception leaves it
    and reaches the framework. *)
Inductive Reply : Type :=
| Send (code : Z) (headers : gmap string string) (body : ReplyBody)
| Uncaught.

(** Why [buildReplaySourceFromRequest] throws. *)
Inductive BuildError : Type :=
| MissingTarget
| InvalidURL (input : string).

(** The values a call draws from [randomUUID()] and the clock. *)
Record Draws : Type := mkDraws {
  source_uuid : string;        (* the id of the replay source *)
  record_uuid : string;        (* the id of the capture record *)
  createdAt_iso : string;      (* [new Date().toISOString()] *)
  elapsedMs : Z                (* [Date.now() - started] *)
}.

(** An outbound call: the two arguments [fetch] was given. *)
Definition Call : Type := (string * FetchInit)%type.

(** What a route handler leaves behind: its reply, the store, and the
    outbound calls it issued, in order. [None] is a handler that does not
    end. *)
Definition Outcome : Type := option (Reply * Store StoredCapture * list Call).

Section Server.

(** Built-ins and collaborators the server is given. *)
Variable JSON_parse : string -> option json.          (* [None]: SyntaxError *)
Variable JSON_stringify : json -> string.             (* [JSON.stringify(v)] *)
Variable JSON_stringify_pretty : json -> string.      (* [JSON.stringify(v, null, 2)] *)
Variable to_String : json -> string.                  (* [String(v)] of a primitive *)
Variable redactText : string -> string.
Variable URL_parse : string -> option string -> option URL.  (* [new URL(input, base)] *)
Variable URL_set_pathname : URL -> string -> URL.     (* [url.pathname = value] *)
Variable URL_toString : URL -> string.
Variable invalid_url_message : string.                (* message of the TypeError of [new URL] *)

(** [fetchImpl]; [None] when the call, or reading the response text,
    rejects: the upstream could not be reached. *)
Variable fetchImpl : string -> FetchInit -> option Upstream.

(** [toRawBody(body)] *)
Definition toRawBody (body : RequestBody) : option string :=
  match body with
  | BodyUndefined => None
  | BodyText s => Some s
  | BodyBuffer utf8 => Some utf8
  | BodyValue JNull => None
  | BodyValue (JString s) => Some s
  | BodyValue (JObject f) => Some (JSON_stringify (JObject f))
  | BodyValue (JArray l) => Some (JSON_stringify (JArray l))
  | BodyValue v => Some (to_String v)
  end.

(** [Buffer.byteLength(s)] of a string held as its UTF-8 bytes. *)
Definition byteLength (s : string) : Z := Z.of_nat (String.length s).

(** [withCapture(store, replay, response)] *)
Definition withCapture (d : Draws) (store : Store StoredCapture) (replay : ReplaySource)
    (response : CaptureResponse)
    : option (completion * Store StoredCapture * CaptureRecord) :=
  let requestContentType := src_headers replay !! "content-type" in
  let responseContentType := cr_headers response !! "content-type" in
  let responseBody := default "" (cr_body response) in
  let record := {|
    rec_id := record_uuid d;
    rec_createdAt := createdAt_iso d;
    rec_replayOf := cr_replayOf response;
    rec_method := JsString.toUpperCase (src_method replay);
    rec_targetUrl := src_targetUrl replay;
    rec_path := src_path replay;
    rec_statusCode := cr_statusCode response;
    rec_durationMs := cr_durationMs response;
    rec_request := {|
      pl_headers := redactHeaders (Some <$> src_headers replay);
      pl_body := redactBody JSON_parse JSON_stringify_pretty redactText
                   (src_body replay) requestContentType;
      pl_size := match src_body replay with
                 | Some b => if JsString.truthy b then byteLength b else 0
                 | None => 0
                 end |};
    rec_response := {|
      pl_headers := redactHeaders (Some <$> cr_headers response);
      pl_body := redactBody JSON_parse JSON_stringify_pretty redactText
                   (Some responseBody) responseContentType;
      pl_size := byteLength responseBody |}
  |} in
  match add record replay store with
  | Some (c, store') => Some (c, store', record)
  | None => None
  end.

(** The call [proxyToTarget] issues. *)
Definition outbound_call (replay : ReplaySource) : Call :=
  (src_targetUrl replay,
   {| init_method := JsString.toUpperCase (src_method replay);
      init_headers := src_headers replay;
      init_body :=
        if String.eqb (src_method replay) "GET" || String.eqb (src_method replay) "HEAD"
        then None else src_body replay |}).

(** [proxyToTarget(fetchImpl, replay)]; [None] when it rejects. *)
Definition proxyToTarget (replay : ReplaySource) : option Upstream :=
  fetchImpl (outbound_call replay).1 (outbound_call replay).2.

Definition error_message (e : BuildError) : string :=
  match e with
  | MissingTarget => "Missing target URL. Set x-proxylab-target header or target query."
  | InvalidURL _ => invalid_url_message
  end.

(** [buildReplaySourceFromRequest(request)]; [inl] is the exception. *)
Definition buildReplaySourceFromRequest (d : Draws) (request : Request)
    : BuildError + ReplaySource :=
  match URL_parse (req_url request) (Some "http://localhost") with
  | None => inl (InvalidURL (req_url request))
  | Some requestQuery =>
      let targetFromHeader := req_headers request !! "x-proxylab-target" in
      let targetFromQuery := searchParams_get "target" requestQuery in
      let rawTarget :=
        match targetFromHeader with
        | Some (HString s) => Some s
        | _ => targetFromQuery
        end in
      match rawTarget with
      | None => inl MissingTarget
      | Some t =>
          if negb (JsString.truthy t) then inl MissingTarget
          else
            match URL_parse t None with
            | None => inl (InvalidURL t)
            | Some baseTarget =>
                let sub := default "" (req_wildcard request) in
                let joined :=
                  URL_set_pathname baseTarget (joinPath (url_pathname baseTarget) sub) in
                inr {| src_id := source_uuid d;
                       src_method := JsString.toUpperCase (req_method request);
                       src_path := "/" +:+ sub;
                       src_targetUrl := URL_toString (forward_params requestQuery joined);
                       src_headers := normalizeHeaders (req_headers request);
                       src_body := toRawBody (req_body request) |}
            end
      end
  end.

(** The merged [replay] object of the replay route. *)
Definition merge_overrides (source : ReplaySource) (overrides : option Overrides)
    : ReplaySource :=
  {| src_id := src_id source;
     src_path := src_path source;
     src_method :=
       match overrides ≫= ov_method with
       | Some m => JsString.toUpperCase m
       | None => src_method source
       end;
     src_targetUrl := default (src_targetUrl source) (overrides ≫= ov_targetUrl);
     src_headers := default ∅ (overrides ≫= ov_headers) ∪ src_headers source;
     src_body :=
       match overrides with
       | Some o =>
           match ov_body o with
           | BodyNull => None
           | BodyReplace b => Some b
           | BodyAbsent => src_body source
           end
       | None => src_body source
       end |}.

(** [app.post("/api/replay", ...)]. The call of [proxyToTarget] stands
    outside any [try]: when it rejects, the exception leaves the
    handler. *)
Definition replay_route (d : Draws) (payload : option ReplayRequest)
    (store : Store StoredCapture) : Outcome :=
  match payload ≫= rq_id with
  | None => Some (Send 400 ∅ (ErrorBody "Replay id is required"), store, [])
  | Some id =>
      if negb (JsString.truthy id)
      then Some (Send 400 ∅ (ErrorBody "Replay id is required"), store, [])
      else
        match getReplaySource id store with
        | None => Some (Send 404 ∅ (ErrorBody "Capture not found"), store, [])
        | Some source =>
            let replay := merge_overrides source (payload ≫= rq_overrides) in
            match proxyToTarget replay with
            | None => Some (Uncaught, store, [outbound_call replay])
            | Some upstream =>
                match withCapture d store replay
                        {| cr_statusCode := up_statusCode upstream;
                           cr_headers := up_headers upstream;
                           cr_body := Some (up_body upstream);
                           cr_durationMs := elapsedMs d;
                           cr_replayOf := Some id |} with
                | Some (Normal, store', record) =>
                    Some (Send 200 ∅ (ItemBody record), store', [outbound_call replay])
                | Some (Thrown, store', _) =>
                    Some (Uncaught, store', [outbound_call replay])
                | None => None
                end
            end
        end
  end.

Definition gateway_error : Reply :=
  Send 502 ∅ (ErrorBody "Failed to reach target API").

(** [app.all("/proxy/*", ...)] *)
Definition proxy_route (d : Draws) (request : Request)
    (store : Store StoredCapture) : Outcome :=
  match buildReplaySourceFromRequest d request with
  | inl e => Some (Send 400 ∅ (ErrorBody (error_message e)), store, [])
  | inr replay =>
      match proxyToTarget replay with
      | None => Some (gateway_error, store, [outbound_call replay])
      | Some upstream =>
          match withCapture d store replay
                  {| cr_statusCode := up_statusCode upstream;
                     cr_headers := up_headers upstream;
                     cr_body := Some (up_body upstream);
                     cr_durationMs := elapsedMs d;
                     cr_replayOf := None |} with
          | Some (Normal, store', _) =>
              Some (Send (up_statusCode upstream)
                      (filter (fun kv => hopByHop_has (JsString.toLowerCase kv.1) = false)
                              (up_headers upstream))
                      (TextBody (up_body upstream)),
                    store', [outbound_call replay])
          | Some (Thrown, store', _) => Some (gateway_error, store', [outbound_call replay])
          | None => None
          end
      end
  end.

End Server.

(** ** Notions the properties are stated with *)

Section StoreNotions.

Context {E : Type} `{EntryShape E}.

(** The key of an element whose key can be read. *)
Definition key_of (e : E) : MapKey := default KeyOther (entry_key e).

(** An element the loops handle without an exception: it is truthy and
    its key can be read. *)
Definition keyed (e : E) : Prop := entry_truthy e = true ∧ is_Some (entry_key e).

(** The index after the elements of [d] have been evicted. *)
Definition evict_all (d : list E) (m : gmap string E) : gmap string E :=
  foldr (fun e acc => map_delete (key_of e) acc) m d.

(** The string an element is indexed under, when its key is a string. *)
Definition sid (e : E) : string :=
  match entry_key e with
  | Some (KeyString i) => i
  | _ => ""
  end.

(** An element that is truthy and whose key reads as a string. *)
Definition string_keyed (e : E) : Prop :=
  entry_truthy e = true /\ exists i, entry_key e = Some (KeyString i).

(** The index [m] holds exactly the elements of [l], each under its
    identifier. *)
Definition index_of (l : list E) (m : gmap string E) : Prop :=
  forall (i : string) (x : E), m !! i = Some x <-> x ∈ l /\ sid x = i.

(** The index after the loop of [hydrate] has set the elements of [es]. *)
Definition index_all (es : list E) (m : gmap string E) : gmap string E :=
  foldl (fun acc e => <[sid e := e]> acc) m es.

End StoreNotions.

(** The double-quote character, as a string. *)
Definition dq : string := String (ascii_of_nat 34) EmptyString.

(** Sample data of the store's tests: [makeCapture(id)] and [makeReplay()]. *)
Definition makeCapture (id : string) : CaptureRecord := {|
  rec_id := id;
  rec_createdAt := "2026-02-01T00:00:00.000Z";
  rec_replayOf := None;
  rec_method := "POST";
  rec_targetUrl := "https://api.example.com/v1/messages";
  rec_path := "/v1/messages";
  rec_statusCode := 200;
  rec_durationMs := 12;
  rec_request := mkPayload {[ "content-type" := "application/json" ]} (Some ("{" +:+ dq +:+ "ok" +:+ dq +:+ ":true}")) 11;
  rec_response := mkPayload {[ "content-type" := "application/json" ]} (Some ("{" +:+ dq +:+ "done" +:+ dq +:+ ":true}")) 13
|}.

Definition makeReplay : ReplaySource := {|
  src_id := "source-1";
  src_method := "POST";
  src_targetUrl := "https://api.example.com/v1/messages";
  src_path := "/v1/messages";
  src_headers := {[ "content-type" := "application/json" ]};
  src_body := Some ("{" +:+ dq +:+ "ok" +:+ dq +:+ ":true}")
|}.

(** The identifier a stored pair is indexed under. *)
Definition entry_id (e : StoredCapture) : string := rec_id (record e).

(** No two retained records share an identifier, and the index holds
    exactly the retained pairs. *)
Definition indexed (s : Store StoredCapture) : Prop :=
  NoDup (entry_id <$> captures s) /\ index_of (captures s) (byId s).

(** The states of a store created with capacity argument [N], when every
    record is added under an identifier no retained record has (the
    server draws them from [randomUUID()]). *)
Inductive reachable (N : option Z) : Store StoredCapture -> Prop :=
| reach_new : reachable N (InMemoryCaptureStore N)
| reach_add (s s' : Store StoredCapture) (r : CaptureRecord) (p : ReplaySource) :
    reachable N s ->
    rec_id r ∉ entry_id <$> captures s ->
    add r p s = Some (Normal, s') ->
    reachable N s'.

(** The state after the first [add] of the store's test. *)
Definition store_one : Store StoredCapture :=
  mkStore [mkEntry (makeCapture "one") makeReplay]
          {[ "one" := mkEntry (makeCapture "one") makeReplay ]} 1.

(** A file that parses but whose one element is no stored pair:
    [{"version": 1, "captures": [{}]}]. *)
Definition malformed_snapshot : json :=
  JObject [("version", JNumber one); ("captures", JArray [JObject []])].

(** A stored pair of a snapshot, reduced to what the store reads. *)
Definition snapshot_entry (id : string) : json :=
  JObject [("record", JObject [("id", JString id)]); ("replay", JObject [])].




(** The masking of a parsed body in the spec's words: a field whose key
    matches the sensitive-field pattern has its value replaced by the
    token, whatever the value holds; every other field is kept, its value
    masked in turn; arrays are masked element by element; other values
    are kept. *)
Fixpoint mask_sensitive (v : json) : json :=
  match v with
  | JArray items => JArray (map mask_sensitive items)
  | JObject fields =>
      JObject (map (fun entry =>
        match entry with
        | (key, nested) =>
            if regex_test_i sensitiveFieldPattern key
            then (key, JString REDACTION_TOKEN)
            else (key, mask_sensitive nested)
        end) fields)
  | _ => v
  end.

(** The body of the server's flow test, parsed. *)
Definition prompt_body : json :=
  JObject [("prompt", JString "hello"); ("apiKey", JString "sk-live-key")].



(** Stand-ins for the built-ins, enough to run the routes on examples: a
    URL parser that takes its input as the path, a setter and a printer
    for it, an upstream that answers and one that cannot be reached. *)
Definition sample_URL_parse (input : string) (base : option string) : option URL :=
  Some (mkURL (default "" base) input [] "").

Definition sample_set_pathname (u : URL) (p : string) : URL :=
  mkURL (url_prefix u) p (url_searchParams u) (url_hash u).

Definition sample_URL_toString (u : URL) : string := url_prefix u +:+ url_pathname u.

Definition fetch_answers : string -> FetchInit -> option Upstream :=
  fun _ _ => Some (mkUpstream 200 ∅ "ok").

Definition fetch_unreachable : string -> FetchInit -> option Upstream :=
  fun _ _ => None.

Definition sample_draws : Draws :=
  mkDraws "uuid-source" "uuid-record" "2026-02-01T00:00:00.000Z" 5.

(** An inbound request with neither the target header nor the target
    query parameter. *)
Definition request_without_target : Request :=
  mkRequest "POST" (Some "v1/messages") "/proxy/v1/messages" ∅ BodyUndefined.

(** ** The standalone in-memory store *)

(** [add(record, replay)] of the in-memory store that stands alone, without
    the file-backed variant: after the insertion it evicts once, with an
    [if], where the other store loops. *)
Definition add_once (record : CaptureRecord) (replay : ReplaySource)
    (s : Store StoredCapture) : Store StoredCapture :=
  let entry := mkEntry record replay in
  let captures1 := entry :: captures s in
  let byId1 := <[rec_id record := entry]> (byId s) in
  if Z.of_nat (length captures1) >? maxCaptures s then
    match pop captures1 with
    | (rest, Some removed) =>
        mkStore rest (delete (entry_id removed) byId1) (maxCaptures s)
    | (rest, None) => mkStore rest byId1 (maxCaptures s)
    end
  else mkStore captures1 byId1 (maxCaptures s).

(** ** Persisting the store *)

Section Persist.

(** The number a JavaScript integer is, and the own properties of a
    header map in the order [JSON.stringify] visits them. *)
Variable number_of_Z : Z -> spec_float.
Variable Object_entries : gmap string string -> list (string * string).
Variable JSON_stringify_pretty : json -> string.

(** A string or [null]. *)
Definition json_of_nullable (x : option string) : json :=
  match x with
  | Some s => JString s
  | None => JNull
  end.

(** The values [JSON.stringify] followed by [JSON.parse] makes of the
    typed objects. A property that is [undefined] is left out; the keys
    are listed in the order of the interfaces. *)
Definition json_of_headers (h : gmap string string) : json :=
  JObject ((fun kv => (kv.1, JString kv.2)) <$> Object_entries h).

Definition json_of_payload (pl : CapturePayload) : json :=
  JObject [("headers", json_of_headers (pl_headers pl));
           ("body", json_of_nullable (pl_body pl));
           ("size", JNumber (number_of_Z (pl_size pl)))].

Definition json_of_record (r : CaptureRecord) : json :=
  JObject [("id", JString (rec_id r));
           ("createdAt", JString (rec_createdAt r));
           ("replayOf", json_of_nullable (rec_replayOf r));
           ("method", JString (rec_method r));
           ("targetUrl", JString (rec_targetUrl r));
           ("path", JString (rec_path r));
           ("statusCode", JNumber (number_of_Z (rec_statusCode r)));
           ("durationMs", JNumber (number_of_Z (rec_durationMs r)));
           ("request", json_of_payload (rec_request r));
           ("response", json_of_payload (rec_response r))].

Definition json_of_replay (p : ReplaySource) : json :=
  JObject ([("id", JString (src_id p));
            ("method", JString (src_method p));
            ("targetUrl", JString (src_targetUrl p));
            ("path", JString (src_path p));
            ("headers", json_of_headers (src_headers p))]
           ++ match src_body p with
              | Some b => [("body", JString b)]
              | None => []
              end).

Definition json_of_entry (e : StoredCapture) : json :=
  JObject [("record", json_of_record (record e)); ("replay", json_of_replay (replay e))].

(** [snapshot()] *)
Definition snapshot (s : Store StoredCapture) : json :=
  JObject [("version", JNumber one); ("captures", JArray (json_of_entry <$> captures s))].

(** [persist()]: what is at [filePath] afterwards, the directory and the
    file being writable. *)
Definition persist (s : Store StoredCapture) : File :=
  Content (JSON_stringify_pretty (snapshot s)).

(** [add(record, replay)] of the file-backed store, on a store that holds
    the pairs of earlier [add] calls: the store and the file afterwards.
    The file is written only when the insertion has returned. *)
Definition FileCaptureStore_add (record : CaptureRecord) (replay : ReplaySource)
    (s : Store StoredCapture) (file : File)
    : option (completion * Store StoredCapture * File) :=
  match add record replay s with
  | Some (Normal, s') => Some (Normal, s', persist s')
  | Some (Thrown, s') => Some (Thrown, s', file)
  | None => None
  end.

End Persist.

(** ** What a redacted value looks like *)

(** Every field of [v], at any depth, whose key matches the
    sensitive-field pattern holds the redaction token. *)
Fixpoint leak_free (v : json) : bool :=
  match v with
  | JArray items => forallb leak_free items
  | JObject fields =>
      forallb (fun entry =>
        match entry with
        | (key, nested) =>
            if regex_test_i sensitiveFieldPattern key
            then match nested with
                 | JString s => String.eqb s REDACTION_TOKEN
                 | _ => false
                 end
            else leak_free nested
        end) fields
  | _ => true
  end.


(** ** More sample data *)

(** A parser that, without a base, takes only inputs that name a scheme. *)
Definition sample_URL_parse_absolute (input : string) (base : option string) : option URL :=
  match base with
  | Some b => Some (mkURL b input [] "")
  | None => if JsString.includes "://" input then Some (mkURL "" input [] "") else None
  end.

(** The request of the server's flow test, its target in the header. *)
Definition request_with_target : Request :=
  mkRequest "post" (Some "v1/messages") "/proxy/v1/messages"
    {[ "x-proxylab-target" := HString "https://api.example.com";
       "authorization" := HString "Bearer very-secret-token" ]}
    (BodyText "hello").

(** The replay source the resolver builds for it. *)
Definition sample_replay : ReplaySource := {|
  src_id := "uuid-source";
  src_method := "POST";
  src_targetUrl := "https://api.example.com/v1/messages";
  src_path := "/v1/messages";
  src_headers := {[ "authorization" := "Bearer very-secret-token" ]};
  src_body := Some "hello"
|}.

(** A request that asks for a page with GET and still carries a body. *)
Definition get_request_with_body : Request :=
  mkRequest "get" (Some "v1/models") "/proxy/v1/models"
    {[ "x-proxylab-target" := HString "https://api.example.com" ]}
    (BodyText "ignored").

(** ** Snippet escaping (snippets.ts) *)

(** [s.replace(/c/g, by)] for a pattern that is the single character [c]
    and a replacement without [$]. *)
Fixpoint replace_char (c : ascii) (by_ : string) (s : string) : string :=
  match s with
  | EmptyString => EmptyString
  | String x r =>
      if Ascii.eqb x c then by_ +:+ replace_char c by_ r
      else String x (replace_char c by_ r)
  end.

(** [escapeShell(value)]: every single quote becomes the four characters
    quote, backslash, quote, quote. *)
Definition escapeShell (value : string) : string :=
  replace_char "'"%char "'\''" value.

(** [escapeJs(value)]: every backslash is doubled, then every backtick
    gets a backslash in front. *)
Definition escapeJs (value : string) : string :=
  replace_char "`"%char "\`" (replace_char "\"%char "\\" value).

(** How a shell reads a word made of single-quoted stretches and
    backslash-escaped characters: inside single quotes every character
    stands for itself up to the closing quote; outside them a backslash
    makes the next character stand for itself. [inq] tells whether a
    stretch is open. [None]: the word is not of that form. *)
Fixpoint sh_read (inq : bool) (s : string) : option string :=
  match s with
  | EmptyString => if inq then None else Some EmptyString
  | String c r =>
      if inq then
        if Ascii.eqb c "'" then sh_read false r else String c <$> sh_read true r
      else if Ascii.eqb c "'" then sh_read true r
      else if Ascii.eqb c "\" then
        match r with
        | String e r' => String e <$> sh_read false r'
        | EmptyString => None
        end
      else None
  end.

(** The text a template literal stands for, on the literals that use no
    escape but those of the backslash and the backtick, no substitution
    (a [$] in front of an opening brace) and no carriage return. [None]:
    the text is not of that form. *)
Fixpoint template_read (s : string) : option string :=
  match s with
  | EmptyString => Some EmptyString
  | String c r =>
      if Ascii.eqb c "\" then
        match r with
        | String e r' =>
            if Ascii.eqb e "\" || Ascii.eqb e "`" then String e <$> template_read r'
            else None
        | EmptyString => None
        end
      else if Ascii.eqb c "`" || Ascii.eqb c (ascii_of_nat 13) then None
      else if Ascii.eqb c "$" && JsString.startsWith "{" r then None
      else String c <$> template_read r
  end.

(** The store of the store's test after its second [add]. *)
Definition store_two : Store StoredCapture :=
  mkStore [mkEntry (makeCapture "two") makeReplay]
          {[ "two" := mkEntry (makeCapture "two") makeReplay ]} 1.

(** * Properties *)

(** ** The pruning loop *)

Section PruneFacts.

Context {E : Type} `{EntryShape E}.

Lemma pop_snoc (l : list E) (e : E) : pop (l ++ [e]) = (l, Some e).
Proof. unfold pop. by rewrite removelast_last, last_snoc. Qed.

Lemma evict_all_snoc (d : list E) (e : E) (m : gmap string E) :
  evict_all (d ++ [e]) m = evict_all d (map_delete (key_of e) m).
Proof. unfold evict_all. by rewrite foldr_app. Qed.

Lemma prune_loop_step (fuel : nat) (l : list E) (e : E) (m : gmap string E) (mx : Z) :
  keyed e ->
  mx < Z.of_nat (length (l ++ [e])) ->
  prune_loop (S fuel) (mkStore (l ++ [e]) m mx)
  = prune_loop fuel (mkStore l (map_delete (key_of e) m) mx).
Proof.
  intros [Ht [k Hk]] Hlen. cbn [prune_loop captures maxCaptures byId].
  destruct (Z.gtb_spec (Z.of_nat (length (l ++ [e]))) mx) as [_|Hle]; [|lia].
  rewrite pop_snoc, Ht. unfold key_of. by rewrite Hk.
Qed.

Lemma prune_loop_stop (fuel : nat) (s : Store E) :
  Z.of_nat (length (captures s)) <= maxCaptures s ->
  prune_loop (S fuel) s = Some (Normal, s).
Proof.
  intros Hle. cbn [prune_loop].
  destruct (Z.gtb_spec (Z.of_nat (length (captures s))) (maxCaptures s)); [lia|done].
Qed.

(** With a capacity that is not negative and a droppable tail, the loop
    ends, keeps the first [maxCaptures] elements and removes the keys of
    the others from the index. *)
Lemma prune_loop_closed (l : list E) :
  forall (m : gmap string E) (mx : Z) (fuel : nat),
    0 <= mx ->
    Forall keyed (drop (Z.to_nat mx) l) ->
    (length (drop (Z.to_nat mx) l) < fuel)%nat ->
    prune_loop fuel (mkStore l m mx)
    = Some (Normal, mkStore (take (Z.to_nat mx) l) (evict_all (drop (Z.to_nat mx) l) m) mx).
Proof.
  induction l as [|e l IH] using rev_ind; intros m mx fuel Hmx Hk Hfuel.
  - destruct fuel as [|fuel]; [simpl in Hfuel; lia|].
    rewrite prune_loop_stop by (simpl; lia).
    by rewrite take_nil, drop_nil.
  - destruct fuel as [|fuel]; [lia|].
    destruct (decide (Z.to_nat mx < length (l ++ [e]))%nat) as [Hgt|Hle].
    + rewrite length_app in Hgt. simpl in Hgt.
      rewrite drop_app_le in Hk, Hfuel by lia.
      rewrite length_app in Hfuel. simpl in Hfuel.
      rewrite Forall_app, Forall_singleton in Hk. destruct Hk as [Hk He].
      rewrite prune_loop_step by (try done; rewrite length_app; simpl; lia).
      rewrite IH by (try done; lia).
      rewrite take_app_le, drop_app_le by lia.
      by rewrite evict_all_snoc.
    + rewrite prune_loop_stop by (simpl; lia).
      rewrite take_ge, drop_ge by lia. done.
Qed.

Lemma prune_closed (s : Store E) :
  0 <= maxCaptures s ->
  Forall keyed (drop (Z.to_nat (maxCaptures s)) (captures s)) ->
  prune s
  = Some (Normal,
          mkStore (take (Z.to_nat (maxCaptures s)) (captures s))
                  (evict_all (drop (Z.to_nat (maxCaptures s)) (captures s)) (byId s))
                  (maxCaptures s)).
Proof.
  intros Hmx Hk. unfold prune. destruct s as [l m mx]. cbn [captures byId maxCaptures] in *.
  apply prune_loop_closed; [done..|]. rewrite length_drop. lia.
Qed.

(** A result of the loop does not depend on the fuel that was left. *)
Lemma prune_loop_more (fuel fuel' : nat) (s : Store E) (r : completion * Store E) :
  prune_loop fuel s = Some r -> (fuel <= fuel')%nat -> prune_loop fuel' s = Some r.
Proof.
  revert fuel' s. induction fuel as [|fuel IH]; intros fuel' s Hr Hle; [done|].
  destruct fuel' as [|fuel']; [lia|]. cbn [prune_loop] in *.
  destruct (Z.of_nat (length (captures s)) >? maxCaptures s); [|done].
  destruct (pop (captures s)) as [rest [e|]].
  - destruct (entry_truthy e); [destruct (entry_key e)|]; try done; apply IH; (done || lia).
  - apply IH; (done || lia).
Qed.

(** With a negative capacity the loop condition holds even for the empty
    array, whose [pop()] returns [undefined]: the loop never ends. *)
Lemma prune_negative_diverges (fuel : nat) :
  forall s : Store E,
    maxCaptures s < 0 -> Forall keyed (captures s) -> prune_loop fuel s = None.
Proof.
  induction fuel as [|fuel IH]; intros s Hneg Hk; [done|].
  cbn [prune_loop].
  destruct (Z.gtb_spec (Z.of_nat (length (captures s))) (maxCaptures s)) as [_|Hle]; [|lia].
  destruct (captures s) as [|e l _] using rev_ind.
  - cbn. by apply IH.
  - rewrite pop_snoc. rewrite Forall_app, Forall_singleton in Hk. destruct Hk as [Hl He].
    destruct He as [Ht [k Hkey]]. rewrite Ht, Hkey. by apply IH.
Qed.

End PruneFacts.

(** ** The in-memory store *)

Lemma typed_keyed (e : StoredCapture) : keyed e.
Proof. split; [done|]. by eexists. Qed.

Lemma typed_all_keyed (l : list StoredCapture) : Forall keyed l.
Proof. apply Forall_forall. intros e _. apply typed_keyed. Qed.

Lemma list_records_typed (s : Store StoredCapture) :
  list_records s = Some ((fun e => Some (record e)) <$> captures s).
Proof.
  unfold list_records. induction (captures s) as [|e l IH]; [done|].
  cbn. cbn in IH. by rewrite IH.
Qed.

(** [add] on a store of capacity at least zero returns, having put the
    new pair in front and cut the array to its first [maxCaptures]
    elements. *)
Lemma add_closed (r : CaptureRecord) (p : ReplaySource) (s : Store StoredCapture) :
  0 <= maxCaptures s ->
  add r p s
  = Some (Normal,
          mkStore (take (Z.to_nat (maxCaptures s)) (mkEntry r p :: captures s))
                  (evict_all (drop (Z.to_nat (maxCaptures s)) (mkEntry r p :: captures s))
                             (<[rec_id r := mkEntry r p]> (byId s)))
                  (maxCaptures s)).
Proof.
  intros Hmx. unfold add. rewrite prune_closed; [done|done|apply typed_all_keyed].
Qed.

Lemma take_app_take {A : Type} (n : nat) (a b : list A) :
  take n (a ++ take n b) = take n (a ++ b).
Proof. rewrite !take_app, take_take. f_equal. f_equal. lia. Qed.

(** The array after a run of [add] calls on a store within its capacity:
    the pairs in reverse order of insertion, in front of what was there,
    cut to the capacity. *)
Lemma adds_closed (xs : list (CaptureRecord * ReplaySource)) :
  forall s : Store StoredCapture,
    0 <= maxCaptures s ->
    (length (captures s) <= Z.to_nat (maxCaptures s))%nat ->
    exists s',
      adds xs s = Some (Normal, s')
      /\ maxCaptures s' = maxCaptures s
      /\ captures s'
         = take (Z.to_nat (maxCaptures s))
                (reverse ((fun x => mkEntry x.1 x.2) <$> xs) ++ captures s).
Proof.
  induction xs as [|[r p] xs IH]; intros s Hmx Hlen.
  - exists s. cbn. split; [done|]. split; [done|]. by rewrite take_ge.
  - cbn [adds]. rewrite add_closed by done.
    edestruct IH as (s' & Hrun & Hmax & Hcap); last first.
    + exists s'. split; [exact Hrun|]. cbn in Hmax, Hcap. split; [done|].
      rewrite Hcap, take_app_take, fmap_cons, reverse_cons, <- app_assoc. done.
    + cbn. rewrite length_take. lia.
    + done.
Qed.

(** C1. For every sequence of [add] calls on a fresh store of capacity
    [N] (500 when the argument is omitted; [N] not negative), every call
    returns, [list()] returns the [N] most recently added records, newest
    first, hence at most [N] of them and exactly [N] once more than [N]
    were added; and a further [add] puts its pair in front and cuts the
    array at the tail to its first [N] elements. *)
Theorem store_keeps_newest (N : option Z) (xs : list (CaptureRecord * ReplaySource)) :
  0 <= default default_maxCaptures N ->
  default_maxCaptures = 500
  /\ exists (s : Store StoredCapture) (recs : list CaptureRecord),
       adds xs (InMemoryCaptureStore N) = Some (Normal, s)
       /\ list_records s = Some (Some <$> recs)
       /\ recs = take (Z.to_nat (default default_maxCaptures N)) (reverse (xs.*1))
       /\ Z.of_nat (length recs) <= default default_maxCaptures N
       /\ (default default_maxCaptures N < Z.of_nat (length xs) ->
           Z.of_nat (length recs) = default default_maxCaptures N)
       /\ forall r p, exists s2,
            add r p s = Some (Normal, s2)
            /\ captures s2
               = take (Z.to_nat (default default_maxCaptures N)) (mkEntry r p :: captures s).
Proof.
  intros Hcap. split; [done|].
  set (cap := default default_maxCaptures N) in *.
  destruct (adds_closed xs (InMemoryCaptureStore N)) as (s & Hrun & Hmax & Hc).
  { exact Hcap. }
  { cbn. lia. }
  cbn [InMemoryCaptureStore maxCaptures captures] in Hmax, Hc. fold cap in Hmax, Hc.
  rewrite app_nil_r in Hc.
  exists s, (take (Z.to_nat cap) (reverse (xs.*1))).
  split; [exact Hrun|]. split.
  { rewrite list_records_typed, Hc, <- fmap_reverse, <- fmap_take, <- !list_fmap_compose.
    f_equal. rewrite <- fmap_reverse, <- fmap_take, <- list_fmap_compose. done. }
  split; [done|]. split.
  { rewrite length_take. lia. }
  split.
  { intros Hmore. rewrite length_take, length_reverse, length_fmap. lia. }
  intros r p. eexists. split.
  - rewrite add_closed by (rewrite Hmax; exact Hcap). reflexivity.
  - cbn. by rewrite Hmax.
Qed.

Lemma store_keeps_newest_witness :
  0 <= default default_maxCaptures (Some 1)
  /\ (default_maxCaptures = 500
      /\ exists (s : Store StoredCapture) (recs : list CaptureRecord),
           adds [(makeCapture "one", makeReplay); (makeCapture "two", makeReplay)]
                (InMemoryCaptureStore (Some 1)) = Some (Normal, s)
           /\ list_records s = Some (Some <$> recs)
           /\ recs = take (Z.to_nat (default default_maxCaptures (Some 1)))
                          (reverse ([(makeCapture "one", makeReplay);
                                     (makeCapture "two", makeReplay)].*1))
           /\ Z.of_nat (length recs) <= default default_maxCaptures (Some 1)
           /\ (default default_maxCaptures (Some 1)
               < Z.of_nat (length [(makeCapture "one", makeReplay);
                                   (makeCapture "two", makeReplay)]) ->
               Z.of_nat (length recs) = default default_maxCaptures (Some 1))
           /\ forall r p, exists s2,
                add r p s = Some (Normal, s2)
                /\ captures s2
                   = take (Z.to_nat (default default_maxCaptures (Some 1)))
                          (mkEntry r p :: captures s)).
Proof.
  split; [cbn; lia|].
  apply (store_keeps_newest (Some 1)
           [(makeCapture "one", makeReplay); (makeCapture "two", makeReplay)]).
  cbn; lia.
Defined.

(** ** The index and the array *)

Section IndexFacts.

Context {E : Type} `{EntryShape E}.

Lemma string_keyed_keyed (e : E) : string_keyed e -> keyed e.
Proof. intros [Ht [i Hi]]. split; [done|]. by exists (KeyString i). Qed.

Lemma string_keyed_key (e : E) : string_keyed e -> entry_key e = Some (KeyString (sid e)).
Proof. intros [_ [i Hi]]. unfold sid. by rewrite Hi. Qed.


Lemma index_of_insert (e : E) (c : list E) (m : gmap string E) :
  sid e ∉ sid <$> c ->
  index_of c m ->
  index_of (e :: c) (<[sid e := e]> m).
Proof.
  unfold index_of. intros Hfresh Hm i x. destruct (decide (sid e = i)) as [<-|Hne].
  - rewrite lookup_insert_eq, elem_of_cons. split.
    + intros [= <-]. by split; [left|].
    + intros [[->|Hin] Hid]; [done|].
      exfalso. apply Hfresh. rewrite <- Hid. by apply list_elem_of_fmap_2.
  - rewrite lookup_insert_ne by done. rewrite Hm, elem_of_cons.
    split; [intros [? ?]; by split; [right|]|].
    intros [[->|Hin] Hid]; [done|by split].
Qed.

Lemma index_of_delete_last (k : list E) (e : E) (m : gmap string E) :
  NoDup (sid <$> k ++ [e]) ->
  index_of (k ++ [e]) m ->
  index_of k (delete (sid e) m).
Proof.
  unfold index_of. rewrite fmap_app, NoDup_app. intros (_ & Hdisj & _) Hm i x.
  rewrite lookup_delete_Some, Hm, elem_of_app, list_elem_of_singleton. split.
  - intros (Hne & [Hin| ->] & Hid); [done|by destruct Hne].
  - intros [Hin Hid]. split; [|by split; [left|]].
    intros Heq. apply (Hdisj (sid e)); [|cbn; left].
    rewrite Heq, <- Hid. by apply list_elem_of_fmap_2.
Qed.

Lemma index_of_evict (d : list E) :
  forall (k : list E) (m : gmap string E),
    Forall string_keyed d ->
    NoDup (sid <$> k ++ d) ->
    index_of (k ++ d) m ->
    index_of k (evict_all d m).
Proof.
  induction d as [|e d IH]; intros k m Hk Hnd Hm.
  - by rewrite app_nil_r in Hm.
  - apply Forall_cons in Hk as [He Hk]. cbn.
    unfold key_of. rewrite (string_keyed_key e He). cbn.
    replace (k ++ e :: d) with ((k ++ [e]) ++ d) in Hnd, Hm by by rewrite <- app_assoc.
    apply index_of_delete_last.
    + rewrite fmap_app in Hnd. by apply NoDup_app in Hnd as [? _].
    + by apply IH.
Qed.


(** On elements whose keys read as strings the loop of [hydrate] ends
    normally, having pushed and indexed all of them. *)
Lemma hydrate_loop_closed (es : list E) :
  forall s : Store E,
    Forall string_keyed es ->
    hydrate_loop es s
    = (Normal, mkStore (captures s ++ es) (index_all es (byId s)) (maxCaptures s)).
Proof.
  induction es as [|e es IH]; intros s Hk.
  - cbn. rewrite app_nil_r. by destruct s.
  - apply Forall_cons in Hk as [He Hk]. cbn [hydrate_loop].
    rewrite (string_keyed_key e He), IH by done. cbn.
    by rewrite <- app_assoc.
Qed.

End IndexFacts.

(** ** The index of the in-memory store *)

Lemma typed_string_keyed (l : list StoredCapture) : Forall string_keyed l.
Proof. apply Forall_forall. intros e _. split; [done|]. by eexists. Qed.

Lemma add_returns (r : CaptureRecord) (p : ReplaySource) (s : Store StoredCapture)
    (res : completion * Store StoredCapture) :
  add r p s = Some res -> 0 <= maxCaptures s.
Proof.
  intros Hadd. destruct (Z.le_gt_cases 0 (maxCaptures s)) as [|Hneg]; [done|].
  unfold add, prune in Hadd. rewrite prune_negative_diverges in Hadd; [done|done|].
  apply typed_all_keyed.
Qed.

Lemma add_indexed (r : CaptureRecord) (p : ReplaySource) (s s' : Store StoredCapture) :
  indexed s ->
  rec_id r ∉ entry_id <$> captures s ->
  add r p s = Some (Normal, s') ->
  indexed s'.
Proof.
  intros [Hnd Hm] Hfresh Hadd.
  pose proof (add_returns _ _ _ _ Hadd) as Hmx.
  rewrite add_closed in Hadd by done. injection Hadd as <-.
  set (l := mkEntry r p :: captures s).
  assert (NoDup (entry_id <$> l)) as Hl by (by apply NoDup_cons).
  assert (index_of l (<[rec_id r := mkEntry r p]> (byId s))) as Hi.
  { change (rec_id r) with (sid (mkEntry r p)).
    apply index_of_insert; [exact Hfresh|exact Hm]. }
  rewrite <- (take_drop (Z.to_nat (maxCaptures s)) l) in Hl, Hi.
  split; cbn [captures byId].
  - rewrite fmap_app in Hl. by apply NoDup_app in Hl as [? _].
  - apply index_of_evict; [apply typed_string_keyed|done..].
Qed.

Lemma reachable_indexed (N : option Z) (s : Store StoredCapture) :
  reachable N s -> indexed s.
Proof.
  induction 1 as [|s s' r p _ IH Hfresh Hadd].
  - split; [constructor|]. intros i x. cbn. rewrite lookup_empty, elem_of_nil.
    split; [done|by intros [[] _]].
  - by eapply add_indexed.
Qed.

Lemma get_typed (id : string) (s : Store StoredCapture) :
  get id s = record <$> byId s !! id.
Proof. unfold get. by destruct (byId s !! id). Qed.

Lemma getReplaySource_typed (id : string) (s : Store StoredCapture) :
  getReplaySource id s = replay <$> byId s !! id.
Proof. unfold getReplaySource. by destruct (byId s !! id). Qed.

Lemma store_one_reachable : reachable (Some 1) store_one.
Proof.
  apply (reach_add (Some 1) (InMemoryCaptureStore (Some 1)) store_one
           (makeCapture "one") makeReplay).
  - constructor.
  - cbn. apply not_elem_of_nil.
  - rewrite add_closed by (cbn; lia). reflexivity.
Qed.

(** C2, as stated, fails: the replay source retained for a record is
    found under the record's identifier, but its own [id] field is
    another identifier. The store's test adds the record ["one"] with the
    source ["source-1"]. *)
Lemma replay_source_id_differs :
  ~ (forall (N : option Z) (s : Store StoredCapture),
       reachable N s ->
       forall (id : string) (r : CaptureRecord) (p : ReplaySource),
         get id s = Some r -> getReplaySource id s = Some p -> src_id p = rec_id r).
Proof.
  intros Hclaim.
  specialize (Hclaim (Some 1) store_one store_one_reachable
                "one" (makeCapture "one") makeReplay).
  discriminate Hclaim; reflexivity.
Qed.

Lemma elem_of_take_elem {A : Type} (x : A) (n : nat) (l : list A) :
  x ∈ take n l -> x ∈ l.
Proof. intros Hx. rewrite <- (take_drop n l), elem_of_app. by left. Qed.

Lemma NoDup_fmap_eq {A B : Type} (f : A -> B) (l : list A) (x y : A) :
  NoDup (f <$> l) -> x ∈ l -> y ∈ l -> f x = f y -> x = y.
Proof.
  induction l as [|a l IH]; intros Hnd Hx Hy Hf; [by apply elem_of_nil in Hx|].
  rewrite fmap_cons in Hnd. apply NoDup_cons in Hnd as [Ha Hnd].
  apply elem_of_cons in Hx as [->|Hx]; apply elem_of_cons in Hy as [->|Hy]; try done.
  - exfalso. apply Ha. rewrite Hf. by apply list_elem_of_fmap_2.
  - exfalso. apply Ha. rewrite <- Hf. by apply list_elem_of_fmap_2.
  - by apply IH.
Qed.

(** C2, amended. In every state reached by [add] calls whose record
    identifiers are not already retained: [get(id)] is defined exactly
    when [getReplaySource(id)] is; every retained pair is found, record
    and replay source, under its record's identifier; everything the
    index returns belongs to a retained pair of that identifier; and a
    pair evicted by a further [add] is gone from the array and from the
    index together, so neither lookup finds it any more. *)
Theorem index_matches_retained (N : option Z) (s : Store StoredCapture) :
  reachable N s ->
  (forall id : string, is_Some (get id s) <-> is_Some (getReplaySource id s))
  /\ (forall e : StoredCapture,
        e ∈ captures s ->
        get (entry_id e) s = Some (record e)
        /\ getReplaySource (entry_id e) s = Some (replay e))
  /\ (forall (id : string) (r : CaptureRecord),
        get id s = Some r ->
        rec_id r = id /\ exists e, e ∈ captures s /\ record e = r)
  /\ (forall (id : string) (p : ReplaySource),
        getReplaySource id s = Some p ->
        exists e, e ∈ captures s /\ replay e = p /\ entry_id e = id)
  /\ (forall (r : CaptureRecord) (p : ReplaySource) (s2 : Store StoredCapture),
        rec_id r ∉ entry_id <$> captures s ->
        add r p s = Some (Normal, s2) ->
        forall e : StoredCapture,
          e ∈ captures s -> e ∉ captures s2 ->
          byId s2 !! entry_id e = None
          /\ get (entry_id e) s2 = None
          /\ getReplaySource (entry_id e) s2 = None).
Proof.
  intros Hreach. destruct (reachable_indexed N s Hreach) as [Hnd Hm].
  unfold index_of in Hm.
  split. { intros id. rewrite get_typed, getReplaySource_typed, !fmap_is_Some. done. }
  split.
  { intros e Hin. rewrite get_typed, getReplaySource_typed.
    assert (byId s !! entry_id e = Some e) as -> by (by apply Hm). done. }
  split.
  { intros id r. rewrite get_typed, fmap_Some. intros (e & He & ->).
    apply Hm in He as [Hin Hid]. split; [done|by exists e]. }
  split.
  { intros id p. rewrite getReplaySource_typed, fmap_Some. intros (e & He & ->).
    apply Hm in He as [Hin Hid]. by exists e. }
  intros r p s2 Hfresh Hadd e Hin Hout.
  assert (byId s2 !! entry_id e = None) as Hnone.
  { destruct (byId s2 !! entry_id e) as [x|] eqn:Hx; [exfalso|done].
    destruct (add_indexed r p s s2 (conj Hnd Hm) Hfresh Hadd) as [_ Hm2].
    apply Hm2 in Hx as [Hx Hid]. change (entry_id x = entry_id e) in Hid.
    pose proof (add_returns _ _ _ _ Hadd) as Hmx.
    rewrite add_closed in Hadd by done. injection Hadd as <-. cbn [captures] in *.
    assert (x ∈ mkEntry r p :: captures s) as Hx'
      by (eapply elem_of_take_elem; exact Hx).
    apply elem_of_cons in Hx' as [->|Hx'].
    - apply Hfresh. change (rec_id r) with (entry_id (mkEntry r p)).
      rewrite Hid. by apply list_elem_of_fmap_2.
    - assert (x = e) as ->; [|done].
      apply (NoDup_fmap_eq entry_id (captures s)); done. }
  by rewrite get_typed, getReplaySource_typed, Hnone.
Qed.

Lemma index_matches_retained_witness :
  reachable (Some 1) store_one
  /\ ((forall id : string, is_Some (get id store_one) <-> is_Some (getReplaySource id store_one))
      /\ (forall e : StoredCapture,
            e ∈ captures store_one ->
            get (entry_id e) store_one = Some (record e)
            /\ getReplaySource (entry_id e) store_one = Some (replay e))
      /\ (forall (id : string) (r : CaptureRecord),
            get id store_one = Some r ->
            rec_id r = id /\ exists e, e ∈ captures store_one /\ record e = r)
      /\ (forall (id : string) (p : ReplaySource),
            getReplaySource id store_one = Some p ->
            exists e, e ∈ captures store_one /\ replay e = p /\ entry_id e = id)
      /\ (forall (r : CaptureRecord) (p : ReplaySource) (s2 : Store StoredCapture),
            rec_id r ∉ entry_id <$> captures store_one ->
            add r p store_one = Some (Normal, s2) ->
            forall e : StoredCapture,
              e ∈ captures store_one -> e ∉ captures s2 ->
              byId s2 !! entry_id e = None
              /\ get (entry_id e) s2 = None
              /\ getReplaySource (entry_id e) s2 = None)).
Proof.
  split; [exact store_one_reachable|].
  exact (index_matches_retained (Some 1) store_one store_one_reachable).
Defined.

(** The store's test "applies max capture limit in memory". *)
Example max_capture_limit_test :
  exists s : Store StoredCapture,
    adds [(makeCapture "one", makeReplay); (makeCapture "two", makeReplay)]
         (InMemoryCaptureStore (Some 1)) = Some (Normal, s)
    /\ list_records s = Some [Some (makeCapture "two")]
    /\ get "one" s = None
    /\ rec_id <$> get "two" s = Some "two".
Proof.
  eexists. split.
  - cbn [adds]. rewrite add_closed by (cbn; lia). cbn [adds].
    rewrite add_closed by (cbn; lia). reflexivity.
  - repeat split; vm_compute; reflexivity.
Qed.

(** ** The file-backed store at startup *)

(** With a capacity that is not negative, [prune] ends on any array:
    normally, or by the exception of an unreadable key. *)
Lemma prune_loop_terminates {E : Type} `{EntryShape E} (fuel : nat) :
  forall (l : list E) (m : gmap string E) (mx : Z),
    0 <= mx -> (length l < fuel)%nat -> is_Some (prune_loop fuel (mkStore l m mx)).
Proof.
  induction fuel as [|fuel IH]; intros l m mx Hmx Hlen; [lia|].
  cbn [prune_loop captures byId maxCaptures].
  destruct (Z.gtb_spec (Z.of_nat (length l)) mx) as [Hgt|_]; [|by eexists].
  destruct l as [|e l _] using rev_ind; [simpl in Hgt; lia|].
  rewrite pop_snoc. rewrite length_app in Hlen. simpl in Hlen.
  destruct (entry_truthy e); [destruct (entry_key e)|]; try (apply IH; (done || lia)).
  by eexists.
Qed.

Lemma hydrate_terminates {E : Type} `{EntryShape E} (es : list E) (s : Store E) :
  0 <= maxCaptures s -> is_Some (hydrate es s).
Proof.
  intros Hmx. unfold hydrate.
  assert (maxCaptures (hydrate_loop es s).2 = maxCaptures s) as Hsame.
  { revert s Hmx. induction es as [|e es IH]; intros s Hmx; [done|].
    cbn [hydrate_loop]. destruct (entry_key e); [|done]. by rewrite IH. }
  destruct (hydrate_loop es s) as [[|] [l m mx]]; [|by eexists].
  cbn in Hsame. subst mx. unfold prune. apply prune_loop_terminates; cbn; [done|lia].
Qed.

Section StartupFacts.

Variable JSON_parse : string -> option json.

(** Constructing the durable store ends, whatever the file holds, as
    long as the capacity is not negative. *)
Lemma FileCaptureStore_total (file : File) (N : option Z) :
  0 <= default default_maxCaptures N ->
  is_Some (FileCaptureStore JSON_parse file N).
Proof.
  intros Hcap. unfold FileCaptureStore, load.
  destruct file as [| |raw]; [by eexists..|].
  destruct (JSON_parse raw) as [parsed|]; [|by eexists].
  apply fmap_is_Some. by apply hydrate_terminates.
Qed.

Lemma FileCaptureStore_absent (N : option Z) :
  FileCaptureStore JSON_parse Absent N = Some (InMemoryCaptureStore N).
Proof. reflexivity. Qed.

Lemma FileCaptureStore_unparsable (raw : string) (N : option Z) :
  JSON_parse raw = None ->
  FileCaptureStore JSON_parse (Content raw) N = Some (InMemoryCaptureStore N).
Proof. intros Hp. unfold FileCaptureStore, load. by rewrite Hp. Qed.

Lemma FileCaptureStore_no_array (raw : string) (parsed : json) (N : option Z) :
  JSON_parse raw = Some parsed ->
  persisted_captures parsed = [] ->
  0 <= default default_maxCaptures N ->
  FileCaptureStore JSON_parse (Content raw) N = Some (InMemoryCaptureStore N).
Proof.
  intros Hp He Hcap. unfold FileCaptureStore, load. rewrite Hp, He.
  unfold hydrate. cbn [hydrate_loop]. unfold prune.
  rewrite prune_loop_stop by (cbn; lia). done.
Qed.

End StartupFacts.

(** C7, at the failing input. When the file parses to
    [{"version": 1, "captures": [{}]}], [hydrate] has pushed the element
    before reading [entry.record.id] throws; [load] swallows the
    exception and the store starts with that element in its array:
    [list()] returns one [undefined] record instead of the empty
    sequence. *)
Theorem load_keeps_malformed_entry (JSON_parse : string -> option json)
    (raw : string) (N : option Z) :
  JSON_parse raw = Some malformed_snapshot ->
  exists s : Store json,
    FileCaptureStore JSON_parse (Content raw) N = Some s
    /\ captures s = [JObject []]
    /\ byId s = ∅
    /\ list_records s = Some [None]
    /\ s <> InMemoryCaptureStore N.
Proof.
  intros Hp. unfold FileCaptureStore, load. rewrite Hp.
  eexists. split; [reflexivity|]. cbn. repeat split. discriminate.
Qed.

Lemma load_keeps_malformed_entry_witness :
  (fun _ : string => Some malformed_snapshot) "{}" = Some malformed_snapshot
  /\ exists s : Store json,
       FileCaptureStore (fun _ => Some malformed_snapshot) (Content "{}") (Some 5) = Some s
       /\ captures s = [JObject []]
       /\ byId s = ∅
       /\ list_records s = Some [None]
       /\ s <> InMemoryCaptureStore (Some 5).
Proof.
  split; [reflexivity|].
  apply (load_keeps_malformed_entry (fun _ => Some malformed_snapshot) "{}" (Some 5)).
  reflexivity.
Defined.

Lemma string_keyed_record (v : json) :
  string_keyed v -> entry_record v = Some (prop v "record").
Proof. intros [_ [i Hi]]. by destruct v. Qed.

Lemma list_records_string_keyed (l : list json) (m : gmap string json) (mx : Z) :
  Forall string_keyed l ->
  list_records (mkStore l m mx) = Some ((fun v => prop v "record") <$> l).
Proof.
  unfold list_records. cbn [captures]. induction 1 as [|v l Hv _ IH]; [done|].
  change (mapM entry_record (v :: l))
    with (y ← entry_record v; k ← mapM entry_record l; mret (y :: k)).
  by rewrite (string_keyed_record v Hv), IH.
Qed.



(** ** The redaction patterns *)

















(** ** Header redaction *)


(** The header map of the server's flow test. *)
Example redactHeaders_bearer :
  redactHeaders {[ "authorization" := Some "Bearer very-secret-token";
                   "content-type" := Some "application/json" ]}
  = {[ "authorization" := "[REDACTED]"; "content-type" := "application/json" ]}.
Proof. vm_compute. reflexivity. Qed.

(** ** Body redaction *)

(** Induction on parsed values, with the elements of arrays and the field
    values of objects. *)
Lemma json_nested_ind (P : json -> Prop) :
  P JNull ->
  (forall b, P (JBool b)) ->
  (forall x, P (JNumber x)) ->
  (forall s, P (JString s)) ->
  (forall items, Forall P items -> P (JArray items)) ->
  (forall fields, Forall (fun kv => P kv.2) fields -> P (JObject fields)) ->
  forall v, P v.
Proof.
  intros Hnull Hbool Hnum Hstr Harr Hobj. fix IH 1.
  intros [|b|x|s|items|fields]; [done|done|done|done| |].
  - apply Harr. induction items as [|v items IHitems]; constructor; [apply IH|exact IHitems].
  - apply Hobj. induction fields as [|[k v] fields IHfields]; constructor;
      [apply IH|exact IHfields].
Qed.

(** Under a parent key that is not sensitive, [redactJsonObject] is the
    masking of the spec. *)
Lemma redactJsonObject_mask (v : json) :
  forall parentKey,
    regex_test_i sensitiveFieldPattern parentKey = false ->
    redactJsonObject v parentKey = mask_sensitive v.
Proof.
  induction v as [|b|x|s|items IH|fields IH] using json_nested_ind;
    intros parentKey Hp; cbn [redactJsonObject mask_sensitive]; try done.
  - by rewrite Hp.
  - f_equal. induction IH as [|v items Hv _ IHitems]; [done|].
    cbn. by rewrite Hv, IHitems.
  - f_equal. rewrite Hp. induction IH as [|[k v] fields Hv _ IHfields]; [done|].
    cbn. rewrite IHfields, orb_false_r.
    destruct (regex_test_i sensitiveFieldPattern k) eqn:Hk; [done|].
    cbn in Hv. by rewrite Hv.
Qed.

Lemma empty_key_not_sensitive : regex_test_i sensitiveFieldPattern "" = false.
Proof. reflexivity. Qed.



Example mask_prompt_body :
  redactJsonObject prompt_body ""
  = JObject [("prompt", JString "hello"); ("apiKey", JString "[REDACTED]")].
Proof. reflexivity. Qed.

(** A nested object under a sensitive key is masked whole; a sensitive key
    inside an array element is found. *)
Example mask_nested :
  redactJsonObject
    (JObject [("session", JObject [("user", JString "bob")]);
              ("items", JArray [JObject [("Password", JString "x"); ("n", JNumber one)]])])
    ""
  = JObject [("session", JString "[REDACTED]");
             ("items", JArray [JObject [("Password", JString "[REDACTED]");
                                        ("n", JNumber one)]])].
Proof. reflexivity. Qed.

(** ** Joining the target path and the wildcard sub-path *)

Lemma append_empty_r (s : string) : s +:+ "" = s.
Proof.
  induction s as [|c s IH]; [reflexivity|].
  change (String c s +:+ "") with (String c (s +:+ "")). by rewrite IH.
Qed.







(** ** The routes *)

Section RouteFacts.

Variable JSON_parse : string -> option json.
Variable JSON_stringify : json -> string.
Variable JSON_stringify_pretty : json -> string.
Variable to_String : json -> string.
Variable redactText : string -> string.
Variable URL_parse : string -> option string -> option URL.
Variable URL_set_pathname : URL -> string -> URL.
Variable URL_toString : URL -> string.
Variable invalid_url_message : string.
Variable fetchImpl : string -> FetchInit -> option Upstream.

Local Abbreviation build := (buildReplaySourceFromRequest JSON_stringify to_String URL_parse
                     URL_set_pathname URL_toString).
Local Abbreviation proxy := (proxy_route JSON_parse JSON_stringify JSON_stringify_pretty to_String
                     redactText URL_parse URL_set_pathname URL_toString
                     invalid_url_message fetchImpl).
Local Abbreviation replay_post := (replay_route JSON_parse JSON_stringify_pretty redactText fetchImpl).


(** C6, the part that holds, and the failing input. When the outbound
    call fails, the proxy route answers with the gateway error and leaves
    the store as it was. The replay route leaves the store as it was too,
    but no reply is sent by the handler: the exception leaves it. *)
Theorem unreachable_upstream (d : Draws) (store : Store StoredCapture) :
  (forall request replay,
     build d request = inr replay ->
     fetchImpl (outbound_call replay).1 (outbound_call replay).2 = None ->
     proxy d request store
     = Some (Send 502 ∅ (ErrorBody "Failed to reach target API"), store,
             [outbound_call replay]))
  /\ (forall id overrides source,
        id <> "" ->
        getReplaySource id store = Some source ->
        fetchImpl (outbound_call (merge_overrides source overrides)).1
                  (outbound_call (merge_overrides source overrides)).2 = None ->
        replay_post d (Some (mkReplayRequest (Some id) overrides)) store
        = Some (Uncaught, store, [outbound_call (merge_overrides source overrides)])).
Proof.
  split.
  - intros request replay Hbuild Hfetch. unfold proxy_route, proxyToTarget.
    by rewrite Hbuild, Hfetch.
  - intros id overrides source Hid Hsource Hfetch. unfold replay_route, proxyToTarget.
    cbn [mbind option_bind rq_id rq_overrides].
    destruct id as [|c id]; [done|]. cbn [JsString.truthy negb].
    rewrite Hsource. cbn [mbind option_bind rq_overrides]. by rewrite Hfetch.
Qed.

Lemma merge_no_overrides (source : ReplaySource) :
  merge_overrides source None = source
  /\ merge_overrides source (Some (mkOverrides None None None BodyAbsent)) = source
  /\ merge_overrides source (Some (mkOverrides None None (Some ∅) BodyAbsent)) = source.
Proof.
  destruct source as [i m t p h b]. unfold merge_overrides.
  cbn [mbind option_bind default ov_method ov_targetUrl ov_headers ov_body
       src_id src_method src_targetUrl src_path src_headers src_body].
  unfold id. by rewrite !(left_id_L ∅ (∪) h).
Qed.



End RouteFacts.

(** ** The routes on sample collaborators *)

Lemma store_one_source : getReplaySource "one" store_one = Some makeReplay.
Proof. reflexivity. Qed.




(** C6 at the failing input: a replay of the stored capture ["one"] while
    the upstream cannot be reached. *)
Example replay_unreachable_uncaught :
  replay_route (fun _ => None) (fun _ => "") (fun t => t) fetch_unreachable sample_draws
    (Some (mkReplayRequest (Some "one") None)) store_one
  = Some (Uncaught, store_one, [outbound_call makeReplay]).
Proof.
  unfold replay_route, proxyToTarget.
  cbn [mbind option_bind rq_id rq_overrides JsString.truthy negb].
  rewrite store_one_source. cbn [mbind option_bind fetch_unreachable].
  by rewrite (proj1 (merge_no_overrides makeReplay)).
Qed.

(** The proxy route on a request that names its target in the header,
    while the upstream cannot be reached: the gateway error, the store as
    it was, one outbound call. *)
Example proxy_unreachable_gateway_error :
  exists call,
    proxy_route (fun _ => None) (fun _ => "") (fun _ => "") (fun _ => "") (fun t => t)
      sample_URL_parse sample_set_pathname sample_URL_toString "Invalid URL"
      fetch_unreachable sample_draws
      (mkRequest "post" (Some "v1/messages") "/proxy/v1/messages"
         {[ "x-proxylab-target" := HString "https://api.example.com";
            "authorization" := HString "Bearer very-secret-token" ]}
         (BodyText "hello"))
      store_one
    = Some (gateway_error, store_one, [call])
    /\ call.1 = "https://api.example.com/v1/messages"
    /\ init_method call.2 = "POST"
    /\ init_headers call.2 !! "x-proxylab-target" = None
    /\ init_headers call.2 !! "authorization" = Some "Bearer very-secret-token".
Proof. eexists. split; [reflexivity|]. repeat split. Qed.

(** The same request with an upstream that answers: the reply relays the
    upstream's status and body, and the new record, in front of the list,
    carries the redacted header while the retained replay source keeps the
    original one. *)
Example proxy_captures_redacted :
  exists reply store' calls record,
    proxy_route (fun _ => None) (fun _ => "") (fun _ => "") (fun _ => "") (fun t => t)
      sample_URL_parse sample_set_pathname sample_URL_toString "Invalid URL"
      fetch_answers sample_draws
      (mkRequest "post" (Some "v1/messages") "/proxy/v1/messages"
         {[ "x-proxylab-target" := HString "https://api.example.com";
            "authorization" := HString "Bearer very-secret-token" ]}
         (BodyText "hello"))
      (InMemoryCaptureStore None)
    = Some (reply, store', calls)
    /\ reply = Send 200 ∅ (TextBody "ok")
    /\ list_records store' = Some [Some record]
    /\ rec_replayOf record = None
    /\ pl_headers (rec_request record) !! "authorization" = Some "[REDACTED]"
    /\ (src_headers <$> getReplaySource "uuid-record" store') ≫= (.!! "authorization")
       = Some "Bearer very-secret-token".
Proof.
  unfold proxy_route, proxyToTarget, withCapture.
  cbn [buildReplaySourceFromRequest sample_URL_parse req_url req_headers].
  eexists _, _, _, _. split.
  - vm_compute. reflexivity.
  - repeat split; vm_compute; reflexivity.
Qed.

(** * Further properties *)

(** ** Insertion and lookup *)

Lemma lookup_evict_all_other {E : Type} `{EntryShape E} (d : list E) (m : gmap string E)
    (i : string) :
  Forall string_keyed d -> i ∉ sid <$> d -> evict_all d m !! i = m !! i.
Proof.
  induction 1 as [|e d He _ IH]; intros Hi; [done|].
  cbn. unfold key_of. rewrite (string_keyed_key e He). cbn.
  rewrite fmap_cons, not_elem_of_cons in Hi. destruct Hi as [Hne Hi].
  rewrite lookup_delete_ne by done. by apply IH.
Qed.

Lemma drop_cons_subset {A : Type} (n : nat) (x : A) (l : list A) (y : A) :
  (1 <= n)%nat -> y ∈ drop n (x :: l) -> y ∈ l.
Proof.
  intros Hn Hy. destruct n as [|n]; [lia|]. cbn in Hy.
  rewrite <- (take_drop n l), elem_of_app. by right.
Qed.

(** X1. With a capacity of at least one, a record added under an
    identifier no retained record has is found by [get], its replay
    source by [getReplaySource], and it is the first of the list. *)
Theorem add_then_lookup (r : CaptureRecord) (p : ReplaySource) (s : Store StoredCapture) :
  1 <= maxCaptures s ->
  rec_id r ∉ entry_id <$> captures s ->
  exists s',
    add r p s = Some (Normal, s')
    /\ get (rec_id r) s' = Some r
    /\ getReplaySource (rec_id r) s' = Some p
    /\ head <$> list_records s' = Some (Some (Some r)).
Proof.
  intros Hmx Hfresh. rewrite add_closed by lia. eexists. split; [reflexivity|].
  assert (evict_all (drop (Z.to_nat (maxCaptures s)) (mkEntry r p :: captures s))
            (<[rec_id r := mkEntry r p]> (byId s)) !! rec_id r = Some (mkEntry r p)) as Hget.
  { rewrite lookup_evict_all_other; [by rewrite lookup_insert_eq|apply typed_string_keyed|].
    intros Hin. apply Hfresh. apply list_elem_of_fmap in Hin as (y & Hy & Hin).
    apply list_elem_of_fmap. exists y. split; [exact Hy|].
    eapply drop_cons_subset; [|exact Hin]. lia. }
  rewrite get_typed, getReplaySource_typed. cbn [byId]. rewrite Hget.
  split; [done|]. split; [done|].
  rewrite list_records_typed. cbn [captures].
  destruct (Z.to_nat (maxCaptures s)) as [|n] eqn:Hn; [lia|]. done.
Qed.

Lemma add_then_lookup_witness :
  1 <= maxCaptures store_one
  /\ (rec_id (makeCapture "two") ∉ entry_id <$> captures store_one)
  /\ exists s',
       add (makeCapture "two") makeReplay store_one = Some (Normal, s')
       /\ get (rec_id (makeCapture "two")) s' = Some (makeCapture "two")
       /\ getReplaySource (rec_id (makeCapture "two")) s' = Some makeReplay
       /\ head <$> list_records s' = Some (Some (Some (makeCapture "two"))).
Proof.
  assert (rec_id (makeCapture "two") ∉ entry_id <$> captures store_one) as Hfresh.
  { cbn. rewrite list_elem_of_singleton. discriminate. }
  split; [cbn; lia|]. split; [exact Hfresh|].
  apply (add_then_lookup (makeCapture "two") makeReplay store_one); [cbn; lia|exact Hfresh].
Defined.

(** X2. A store of capacity zero retains nothing: after any run of [add]
    calls it is the empty store it was created as. *)
Theorem zero_capacity_retains_nothing (xs : list (CaptureRecord * ReplaySource)) :
  adds xs (InMemoryCaptureStore (Some 0)) = Some (Normal, InMemoryCaptureStore (Some 0)).
Proof.
  change (InMemoryCaptureStore (Some 0)) with (mkStore (E:=StoredCapture) [] ∅ 0).
  induction xs as [|[r p] xs IH]; [done|].
  cbn [adds]. rewrite add_closed by (cbn; lia).
  cbn [captures byId maxCaptures]. change (Z.to_nat 0) with 0%nat. cbn [firstn skipn].
  change (evict_all [mkEntry r p] (<[rec_id r := mkEntry r p]> ∅))
    with (delete (rec_id r) (<[rec_id r := mkEntry r p]> (∅ : gmap string StoredCapture))).
  rewrite delete_insert_id by apply lookup_empty. exact IH.
Qed.

(** X3. With a negative capacity [add] does not return: after the
    insertion the loop of [prune] runs out of any fuel, because its
    condition holds even for the empty array. *)
Theorem negative_capacity_never_returns (r : CaptureRecord) (p : ReplaySource)
    (s : Store StoredCapture) :
  maxCaptures s < 0 ->
  add r p s = None
  /\ forall fuel,
       prune_loop fuel
         (mkStore (mkEntry r p :: captures s) (<[rec_id r := mkEntry r p]> (byId s))
                  (maxCaptures s)) = None.
Proof.
  intros Hneg. split; [unfold add, prune|intros fuel];
    apply prune_negative_diverges; (done || apply typed_all_keyed).
Qed.

Lemma negative_capacity_never_returns_witness :
  maxCaptures (InMemoryCaptureStore (E:=StoredCapture) (Some (-1))) < 0
  /\ add (makeCapture "one") makeReplay (InMemoryCaptureStore (Some (-1))) = None
  /\ forall fuel,
       prune_loop fuel
         (mkStore (mkEntry (makeCapture "one") makeReplay
                     :: captures (InMemoryCaptureStore (Some (-1))))
                  (<[rec_id (makeCapture "one") := mkEntry (makeCapture "one") makeReplay]>
                     (byId (InMemoryCaptureStore (Some (-1)))))
                  (maxCaptures (InMemoryCaptureStore (E:=StoredCapture) (Some (-1))))) = None.
Proof.
  split; [cbn; lia|].
  apply (negative_capacity_never_returns (makeCapture "one") makeReplay
           (InMemoryCaptureStore (Some (-1)))).
  cbn; lia.
Defined.

Lemma take_drop_last {A : Type} (l : list A) (x : A) :
  take (length l) (l ++ [x]) = l /\ drop (length l) (l ++ [x]) = [x].
Proof.
  split.
  - by rewrite take_app_length.
  - by rewrite drop_app_length.
Qed.

(** X4. In a full store, a record added under the identifier of the
    oldest retained record is listed first but cannot be looked up: the
    eviction of the oldest record deletes the identifier the new record
    was just indexed under. *)
Theorem readded_identifier_is_orphaned (r : CaptureRecord) (p : ReplaySource)
    (s : Store StoredCapture) (oldest : StoredCapture) :
  1 <= maxCaptures s ->
  Z.of_nat (length (captures s)) = maxCaptures s ->
  last (captures s) = Some oldest ->
  entry_id oldest = rec_id r ->
  exists s',
    add r p s = Some (Normal, s')
    /\ captures s' = mkEntry r p :: removelast (captures s)
    /\ head <$> list_records s' = Some (Some (Some r))
    /\ get (rec_id r) s' = None
    /\ getReplaySource (rec_id r) s' = None.
Proof.
  intros Hmx Hlen Hlast Hid. rewrite add_closed by lia. eexists. split; [reflexivity|].
  destruct (captures s) as [|x c _] eqn:Hc using rev_ind; [done|].
  rewrite last_snoc in Hlast. injection Hlast as ->.
  rewrite length_app in Hlen. cbn in Hlen.
  replace (Z.to_nat (maxCaptures s)) with (length (mkEntry r p :: c)) by (cbn; lia).
  change (mkEntry r p :: c ++ [oldest]) with ((mkEntry r p :: c) ++ [oldest]).
  destruct (take_drop_last (mkEntry r p :: c) oldest) as [-> ->].
  rewrite removelast_last, get_typed, getReplaySource_typed, list_records_typed.
  cbn [captures byId].
  change (evict_all [oldest] ?m) with (delete (entry_id oldest) m).
  rewrite Hid, lookup_delete_eq. done.
Qed.

Lemma readded_identifier_is_orphaned_witness :
  1 <= maxCaptures store_one
  /\ Z.of_nat (length (captures store_one)) = maxCaptures store_one
  /\ last (captures store_one) = Some (mkEntry (makeCapture "one") makeReplay)
  /\ entry_id (mkEntry (makeCapture "one") makeReplay) = rec_id (makeCapture "one")
  /\ exists s',
       add (makeCapture "one") makeReplay store_one = Some (Normal, s')
       /\ captures s' = mkEntry (makeCapture "one") makeReplay :: removelast (captures store_one)
       /\ head <$> list_records s' = Some (Some (Some (makeCapture "one")))
       /\ get (rec_id (makeCapture "one")) s' = None
       /\ getReplaySource (rec_id (makeCapture "one")) s' = None.
Proof.
  split; [cbn; lia|]. split; [reflexivity|]. split; [reflexivity|]. split; [reflexivity|].
  apply (readded_identifier_is_orphaned (makeCapture "one") makeReplay store_one
           (mkEntry (makeCapture "one") makeReplay)); [cbn; lia|reflexivity..].
Defined.

(** X5. On a store within a capacity that is not negative, the [add] of
    the standalone store, which evicts once, returns the store the looping
    [add] returns. *)
Theorem add_once_agrees (r : CaptureRecord) (p : ReplaySource) (s : Store StoredCapture) :
  0 <= maxCaptures s ->
  Z.of_nat (length (captures s)) <= maxCaptures s ->
  add r p s = Some (Normal, add_once r p s).
Proof.
  intros Hmx Hlen. rewrite add_closed by done. unfold add_once. f_equal. f_equal.
  destruct (Z.gtb_spec (Z.of_nat (length (mkEntry r p :: captures s))) (maxCaptures s))
    as [Hgt|Hle].
  - cbn [length] in Hgt.
    assert (exists c x, mkEntry r p :: captures s = c ++ [x]) as (c & x & Heq).
    { destruct (mkEntry r p :: captures s) as [|y l _] eqn:Hl using rev_ind; [done|].
      by exists l, y. }
    assert (Z.to_nat (maxCaptures s) = length c) as ->.
    { apply (f_equal length) in Heq. rewrite length_app in Heq. cbn in Heq. lia. }
    rewrite Heq. destruct (take_drop_last c x) as [-> ->]. rewrite pop_snoc. done.
  - cbn [length] in Hle. rewrite take_ge, drop_ge by (cbn [length]; lia). done.
Qed.

Lemma add_once_agrees_witness :
  0 <= maxCaptures store_one
  /\ Z.of_nat (length (captures store_one)) <= maxCaptures store_one
  /\ add (makeCapture "two") makeReplay store_one
     = Some (Normal, add_once (makeCapture "two") makeReplay store_one).
Proof.
  split; [cbn; lia|]. split; [cbn; lia|].
  apply (add_once_agrees (makeCapture "two") makeReplay store_one); cbn; lia.
Defined.

(** ** Startup of the file-backed store *)

(** X6. With a capacity that is not negative, constructing the
    file-backed store ends whatever is found at the path; and the store is
    empty when the file is absent, cannot be read, does not parse, or
    parses to a value that carries no [captures] array. *)
Theorem startup_always_constructs (JSON_parse : string -> option json) (N : option Z) :
  0 <= default default_maxCaptures N ->
  (forall file, is_Some (FileCaptureStore JSON_parse file N))
  /\ FileCaptureStore JSON_parse Absent N = Some (InMemoryCaptureStore N)
  /\ FileCaptureStore JSON_parse Unreadable N = Some (InMemoryCaptureStore N)
  /\ (forall raw,
        JSON_parse raw = None ->
        FileCaptureStore JSON_parse (Content raw) N = Some (InMemoryCaptureStore N))
  /\ (forall raw parsed,
        JSON_parse raw = Some parsed ->
        (forall items, prop parsed "captures" <> Some (JArray items)) ->
        FileCaptureStore JSON_parse (Content raw) N = Some (InMemoryCaptureStore N)).
Proof.
  intros Hcap. split; [|split; [|split; [|split]]].
  - intros file. by apply FileCaptureStore_total.
  - reflexivity.
  - reflexivity.
  - intros raw Hp. by apply FileCaptureStore_unparsable.
  - intros raw parsed Hp Hno. apply (FileCaptureStore_no_array _ raw parsed); [done| |done].
    unfold persisted_captures. destruct parsed; try done.
    destruct (prop (JObject fields) "captures") as [[| | | |items|]|] eqn:Hc; try done.
    by destruct (Hno items).
Qed.

Lemma startup_always_constructs_witness :
  0 <= default default_maxCaptures (Some 5)
  /\ (forall file, is_Some (FileCaptureStore (fun _ => None) file (Some 5)))
  /\ FileCaptureStore (fun _ => None) Absent (Some 5) = Some (InMemoryCaptureStore (Some 5)).
Proof.
  split; [cbn; lia|].
  destruct (startup_always_constructs (fun _ => None) (Some 5)) as (Hall & Habsent & _);
    [cbn; lia|].
  split; [exact Hall|exact Habsent].
Defined.

Lemma hydrate_loop_app {E : Type} `{EntryShape E} (good more : list E) :
  forall s : Store E,
    Forall string_keyed good ->
    hydrate_loop (good ++ more) s
    = hydrate_loop more
        (mkStore (captures s ++ good) (index_all good (byId s)) (maxCaptures s)).
Proof.
  induction good as [|e good IH]; intros s Hk.
  - cbn. rewrite app_nil_r. by destruct s.
  - apply Forall_cons in Hk as [He Hk]. cbn [app hydrate_loop].
    rewrite (string_keyed_key e He), IH by done. cbn. by rewrite <- app_assoc.
Qed.

(** X7. [hydrate] stops at the first element whose key cannot be read:
    the elements before it are in the array and in the index, the element
    itself is in the array only, the elements after it are not loaded, and
    the array is not pruned. *)
Theorem hydrate_stops_at_unreadable {E : Type} `{EntryShape E}
    (good : list E) (bad : E) (rest : list E) (s : Store E) :
  Forall string_keyed good ->
  entry_key bad = None ->
  hydrate (good ++ bad :: rest) s
  = Some (Thrown,
          mkStore (captures s ++ good ++ [bad]) (index_all good (byId s)) (maxCaptures s)).
Proof.
  intros Hk Hbad. unfold hydrate. rewrite hydrate_loop_app by done.
  cbn [hydrate_loop captures byId maxCaptures]. rewrite Hbad.
  by rewrite <- app_assoc.
Qed.

Lemma hydrate_stops_at_unreadable_witness :
  Forall (string_keyed (E:=json)) [snapshot_entry "a"]
  /\ entry_key JNull = None
  /\ hydrate ([snapshot_entry "a"] ++ JNull :: [snapshot_entry "b"])
       (InMemoryCaptureStore (Some 1))
     = Some (Thrown,
             mkStore (captures (InMemoryCaptureStore (Some 1)) ++ [snapshot_entry "a"] ++ [JNull])
                     (index_all [snapshot_entry "a"] (byId (InMemoryCaptureStore (Some 1))))
                     (maxCaptures (InMemoryCaptureStore (E:=json) (Some 1)))).
Proof.
  assert (Forall (string_keyed (E:=json)) [snapshot_entry "a"]) as Hk
    by (repeat constructor; by eexists).
  split; [exact Hk|]. split; [reflexivity|].
  apply (hydrate_stops_at_unreadable [snapshot_entry "a"] JNull [snapshot_entry "b"]
           (InMemoryCaptureStore (Some 1))); [exact Hk|reflexivity].
Defined.

(** ** Persisting and loading again *)

(** What [load] leaves on a file whose elements have string keys. *)
Lemma load_closed (JSON_parse : string -> option json) (raw : string) (parsed : json)
    (N : option Z) :
  JSON_parse raw = Some parsed ->
  0 <= default default_maxCaptures N ->
  Forall (string_keyed (E:=json)) (persisted_captures parsed) ->
  FileCaptureStore JSON_parse (Content raw) N
  = Some (mkStore
            (take (Z.to_nat (default default_maxCaptures N)) (persisted_captures parsed))
            (evict_all
               (drop (Z.to_nat (default default_maxCaptures N)) (persisted_captures parsed))
               (index_all (persisted_captures parsed) ∅))
            (default default_maxCaptures N)).
Proof.
  intros Hp Hcap Hk. unfold FileCaptureStore, load. rewrite Hp.
  unfold hydrate. rewrite hydrate_loop_closed by done.
  cbn [InMemoryCaptureStore captures byId maxCaptures app].
  rewrite prune_closed; cbn [captures byId maxCaptures]; [done|done|].
  apply Forall_drop. eapply Forall_impl; [exact Hk|]. apply string_keyed_keyed.
Qed.


Section PersistFacts.

Variable number_of_Z : Z -> spec_float.
Variable Object_entries : gmap string string -> list (string * string).
Variable JSON_stringify_pretty : json -> string.
Variable JSON_parse : string -> option json.

Local Abbreviation to_entry := (json_of_entry number_of_Z Object_entries).
Local Abbreviation to_record := (json_of_record number_of_Z Object_entries).
Local Abbreviation to_replay := (json_of_replay Object_entries).




End PersistFacts.


(** ** Redaction, once more *)






(** X10. Redacting a header map twice is redacting it once: the token
    is not empty, so a redacted header is kept and gets the token again,
    and an untouched header is untouched again. *)
Theorem redactHeaders_idempotent (headers : gmap string (option string)) :
  redactHeaders (Some <$> redactHeaders headers) = redactHeaders headers.
Proof.
  apply map_eq. intros key. unfold redactHeaders.
  rewrite !map_lookup_imap, lookup_fmap, map_lookup_imap.
  destruct (headers !! key) as [[[|c v]|]|]; cbn [mbind option_bind fmap option_fmap
    option_map JsString.truthy]; try done.
  destruct (header_shouldRedact key) eqn:Hs; cbn [mbind option_bind JsString.truthy
    REDACTION_TOKEN]; by rewrite ?Hs.
Qed.

Lemma mask_sensitive_idempotent (v : json) :
  mask_sensitive (mask_sensitive v) = mask_sensitive v.
Proof.
  induction v as [|b|x|s|items IH|fields IH] using json_nested_ind;
    cbn [mask_sensitive]; try done.
  - f_equal. rewrite map_map. induction IH as [|v items Hv _ IHitems]; [done|].
    cbn. by rewrite Hv, IHitems.
  - f_equal. rewrite map_map. induction IH as [|[k v] fields Hv _ IHfields]; [done|].
    cbn. rewrite IHfields.
    destruct (regex_test_i sensitiveFieldPattern k) eqn:Hk; rewrite Hk; [done|].
    cbn in Hv. by rewrite Hv.
Qed.

(** X11. Redacting a parsed body twice is redacting it once. *)
Theorem redactJsonObject_idempotent (v : json) :
  redactJsonObject (redactJsonObject v "") "" = redactJsonObject v "".
Proof.
  rewrite !(redactJsonObject_mask _ "" empty_key_not_sensitive).
  apply mask_sensitive_idempotent.
Qed.

Lemma mask_sensitive_leak_free (v : json) : leak_free (mask_sensitive v) = true.
Proof.
  induction v as [|b|x|s|items IH|fields IH] using json_nested_ind;
    cbn [mask_sensitive leak_free]; try done.
  - induction IH as [|v items Hv _ IHitems]; [done|]. cbn. by rewrite Hv, IHitems.
  - induction IH as [|[k v] fields Hv _ IHfields]; [done|].
    cbn [map forallb]. rewrite IHfields, andb_true_r.
    destruct (regex_test_i sensitiveFieldPattern k) eqn:Hk; rewrite Hk; [done|exact Hv].
Qed.

(** X12. In a redacted body no field whose key matches the
    sensitive-field pattern, at any depth, inside objects or arrays, holds
    anything but the redaction token. *)
Theorem redacted_body_leaks_nothing (v : json) :
  leak_free (redactJsonObject v "") = true.
Proof.
  rewrite (redactJsonObject_mask _ "" empty_key_not_sensitive).
  apply mask_sensitive_leak_free.
Qed.



(** ** The routes, further *)

Lemma normalizeHeaders_hop_by_hop (headers : gmap string HeaderValue) (k : string) :
  hopByHop_has (JsString.toLowerCase k) = true -> normalizeHeaders headers !! k = None.
Proof.
  intros Hhop. unfold normalizeHeaders. rewrite map_lookup_imap.
  destruct (headers !! k) as [v|]; [|done]. cbn [mbind option_bind]. by rewrite Hhop.
Qed.

Section RouteFactsFurther.

Variable JSON_parse : string -> option json.
Variable JSON_stringify : json -> string.
Variable JSON_stringify_pretty : json -> string.
Variable to_String : json -> string.
Variable redactText : string -> string.
Variable URL_parse : string -> option string -> option URL.
Variable URL_set_pathname : URL -> string -> URL.
Variable URL_toString : URL -> string.
Variable invalid_url_message : string.
Variable fetchImpl : string -> FetchInit -> option Upstream.

Local Abbreviation build := (buildReplaySourceFromRequest JSON_stringify to_String URL_parse
                               URL_set_pathname URL_toString).
Local Abbreviation proxy := (proxy_route JSON_parse JSON_stringify JSON_stringify_pretty
                               to_String redactText URL_parse URL_set_pathname URL_toString
                               invalid_url_message fetchImpl).
Local Abbreviation replay_post :=
  (replay_route JSON_parse JSON_stringify_pretty redactText fetchImpl).
Local Abbreviation capture :=
  (withCapture JSON_parse JSON_stringify_pretty redactText).

Lemma build_headers (d : Draws) (request : Request) (replay : ReplaySource) :
  build d request = inr replay ->
  src_headers replay = normalizeHeaders (req_headers request)
  /\ src_method replay = JsString.toUpperCase (req_method request)
  /\ src_body replay = toRawBody JSON_stringify to_String (req_body request)
  /\ src_id replay = source_uuid d.
Proof.
  unfold buildReplaySourceFromRequest.
  destruct (URL_parse (req_url request) (Some "http://localhost")) as [q|]; [|done].
  destruct (match req_headers request !! "x-proxylab-target" with
            | Some (HString s) => Some s
            | _ => searchParams_get "target" q
            end) as [t|]; [|done].
  destruct (negb (JsString.truthy t)); [done|].
  destruct (URL_parse t None) as [base|]; [|done].
  by intros [= <-].
Qed.

Lemma proxy_calls (d : Draws) (request : Request) (store : Store StoredCapture)
    (reply : Reply) (store' : Store StoredCapture) (calls : list Call) :
  proxy d request store = Some (reply, store', calls) ->
  calls = []
  \/ exists replay, build d request = inr replay /\ calls = [outbound_call replay].
Proof.
  unfold proxy_route. destruct (build d request) as [e|replay] eqn:Hb.
  - intros [= _ _ <-]. by left.
  - intros Hrun. right. exists replay. split; [done|].
    destruct (proxyToTarget fetchImpl replay); [|by injection Hrun as _ _ <-].
    destruct (withCapture _ _ _ _ _ _ _) as [[[[] ?] ?]|]; [| |done];
      by injection Hrun as _ _ <-.
Qed.

(** X14. Whatever the proxy route is asked, it issues at most one
    outbound call, and that call carries none of the hop-by-hop headers
    ([connection], [content-length], [host], [transfer-encoding],
    [x-proxylab-target]), in any letter case. *)
Theorem proxy_forwards_no_hop_by_hop (d : Draws) (request : Request)
    (store : Store StoredCapture) (reply : Reply) (store' : Store StoredCapture)
    (calls : list Call) :
  proxy d request store = Some (reply, store', calls) ->
  (length calls <= 1)%nat
  /\ forall call k,
       call ∈ calls ->
       hopByHop_has (JsString.toLowerCase k) = true ->
       init_headers call.2 !! k = None.
Proof.
  intros Hrun. destruct (proxy_calls _ _ _ _ _ _ Hrun) as [->|(replay & Hb & ->)].
  - split; [cbn; lia|]. intros call k Hin. by apply elem_of_nil in Hin.
  - split; [cbn; lia|]. intros call k Hin Hhop.
    apply list_elem_of_singleton in Hin as ->. cbn [outbound_call snd init_headers].
    destruct (build_headers d request replay Hb) as [-> _].
    by apply normalizeHeaders_hop_by_hop.
Qed.

(** X15. A target that does not parse as a URL, whether it came in the
    header or in the query, is answered 400 with the message of the
    parser's error; no outbound call is issued and the store is left as it
    was. *)
Theorem unparsable_target_rejected (d : Draws) (request : Request)
    (store : Store StoredCapture) (requestQuery : URL) (t : string) :
  URL_parse (req_url request) (Some "http://localhost") = Some requestQuery ->
  req_headers request !! "x-proxylab-target" = Some (HString t)
  \/ ((forall h, req_headers request !! "x-proxylab-target" <> Some (HString h))
      /\ searchParams_get "target" requestQuery = Some t) ->
  t <> "" ->
  URL_parse t None = None ->
  proxy d request store = Some (Send 400 ∅ (ErrorBody invalid_url_message), store, []).
Proof.
  intros Hurl Htarget Ht Hbad.
  assert (build d request = inl (InvalidURL t)) as Hbuild.
  { unfold buildReplaySourceFromRequest. rewrite Hurl.
    assert (match req_headers request !! "x-proxylab-target" with
            | Some (HString s) => Some s
            | _ => searchParams_get "target" requestQuery
            end = Some t) as ->.
    { destruct Htarget as [->|[Hno Hq]]; [done|].
      destruct (req_headers request !! "x-proxylab-target") as [[h| |]|]; try done.
      by destruct (Hno h). }
    destruct t as [|c t]; [done|]. cbn [JsString.truthy negb]. by rewrite Hbad. }
  unfold proxy_route. by rewrite Hbuild.
Qed.

(** X16. The target header, when it is a string, is the only source of
    the target: an empty header is answered 400 with the missing-target
    message even when the query names a target. A header that is not a
    string (absent, [undefined], or a list of values) leaves the choice to
    the query parameter. *)
Theorem target_header_shadows_query (d : Draws) (request : Request) (requestQuery : URL) :
  URL_parse (req_url request) (Some "http://localhost") = Some requestQuery ->
  (req_headers request !! "x-proxylab-target" = Some (HString "") ->
   forall store,
     proxy d request store
     = Some (Send 400 ∅
               (ErrorBody "Missing target URL. Set x-proxylab-target header or target query."),
             store, []))
  /\ (forall t baseTarget,
        (forall h, req_headers request !! "x-proxylab-target" <> Some (HString h)) ->
        searchParams_get "target" requestQuery = Some t ->
        t <> "" ->
        URL_parse t None = Some baseTarget ->
        exists replay,
          build d request = inr replay
          /\ src_targetUrl replay
             = URL_toString
                 (forward_params requestQuery
                    (URL_set_pathname baseTarget
                       (joinPath (url_pathname baseTarget)
                                 (default "" (req_wildcard request)))))).
Proof.
  intros Hurl. split.
  - intros Hh store. unfold proxy_route, buildReplaySourceFromRequest.
    by rewrite Hurl, Hh.
  - intros t baseTarget Hno Hq Ht Hbase. unfold buildReplaySourceFromRequest.
    rewrite Hurl, Hq.
    assert (match req_headers request !! "x-proxylab-target" with
            | Some (HString s) => Some s
            | _ => Some t
            end = Some t) as ->.
    { destruct (req_headers request !! "x-proxylab-target") as [[h| |]|]; try done.
      by destruct (Hno h). }
    destruct t as [|c t]; [done|]. cbn [JsString.truthy negb]. rewrite Hbase.
    by eexists.
Qed.

(** X17. The replay route answers 400 when the payload is missing or its
    identifier is missing or empty, and 404 when no replay source is
    retained under the identifier; in both cases no outbound call is
    issued and the store is left as it was. *)
Theorem replay_rejections (d : Draws) (store : Store StoredCapture) :
  replay_post d None store
  = Some (Send 400 ∅ (ErrorBody "Replay id is required"), store, [])
  /\ (forall overrides,
        replay_post d (Some (mkReplayRequest None overrides)) store
        = Some (Send 400 ∅ (ErrorBody "Replay id is required"), store, []))
  /\ (forall overrides,
        replay_post d (Some (mkReplayRequest (Some "") overrides)) store
        = Some (Send 400 ∅ (ErrorBody "Replay id is required"), store, []))
  /\ (forall id overrides,
        id <> "" ->
        getReplaySource id store = None ->
        replay_post d (Some (mkReplayRequest (Some id) overrides)) store
        = Some (Send 404 ∅ (ErrorBody "Capture not found"), store, [])).
Proof.
  repeat split; try done.
  intros id overrides Hid Hnone. unfold replay_route.
  cbn [mbind option_bind rq_id]. destruct id as [|c id]; [done|].
  cbn [JsString.truthy negb]. by rewrite Hnone.
Qed.

Lemma upper_upper_ascii (c : ascii) :
  JsString.upper_ascii (JsString.upper_ascii c) = JsString.upper_ascii c.
Proof. destruct c as [[] [] [] [] [] [] [] []]; reflexivity. Qed.

Lemma toUpperCase_idem (s : string) :
  JsString.toUpperCase (JsString.toUpperCase s) = JsString.toUpperCase s.
Proof.
  induction s as [|c s IH]; [done|].
  cbn. f_equal; [apply upper_upper_ascii|exact IH].
Qed.

(** X18. A proxied request whose method is GET or HEAD in any letter
    case is sent upstream without a body, whatever body it came with, and
    with its method in upper case; any other request is sent with the
    body the resolver captured. *)
Theorem get_and_head_carry_no_body (d : Draws) (request : Request) (replay : ReplaySource) :
  build d request = inr replay ->
  init_method (outbound_call replay).2 = JsString.toUpperCase (req_method request)
  /\ (JsString.toUpperCase (req_method request) = "GET"
      \/ JsString.toUpperCase (req_method request) = "HEAD" ->
      init_body (outbound_call replay).2 = None)
  /\ (JsString.toUpperCase (req_method request) <> "GET" ->
      JsString.toUpperCase (req_method request) <> "HEAD" ->
      init_body (outbound_call replay).2
      = toRawBody JSON_stringify to_String (req_body request)).
Proof.
  intros Hb. destruct (build_headers d request replay Hb) as (_ & Hm & Hbody & _).
  cbn [outbound_call snd init_method init_body]. rewrite Hm, Hbody, toUpperCase_idem.
  split; [done|]. split.
  - by intros [->| ->].
  - intros Hget Hhead.
    destruct (String.eqb_spec (JsString.toUpperCase (req_method request)) "GET"); [done|].
    destruct (String.eqb_spec (JsString.toUpperCase (req_method request)) "HEAD"); done.
Qed.

Lemma new_pair_stays_indexed (r : CaptureRecord) (p : ReplaySource)
    (s : Store StoredCapture) :
  1 <= maxCaptures s ->
  rec_id r ∉ entry_id <$> captures s ->
  evict_all (drop (Z.to_nat (maxCaptures s)) (mkEntry r p :: captures s))
    (<[rec_id r := mkEntry r p]> (byId s)) !! rec_id r = Some (mkEntry r p).
Proof.
  intros Hmx Hfresh.
  rewrite lookup_evict_all_other; [by rewrite lookup_insert_eq|apply typed_string_keyed|].
  intros Hin. apply Hfresh. apply list_elem_of_fmap in Hin as (y & Hy & Hin).
  apply list_elem_of_fmap. exists y. split; [exact Hy|].
  eapply drop_cons_subset; [|exact Hin]. lia.
Qed.



(** X20. A capture made by the proxy route and then replayed without
    overrides is re-issued as it was first sent: whatever the upstream
    does this time, the replay route ends and the one outbound call it
    issues equals the call the proxy route issued, unredacted headers and
    body included. *)
Theorem replay_reissues_proxied_call (d : Draws) (request : Request)
    (store : Store StoredCapture) (sent : ReplaySource) (upstream : Upstream) :
  build d request = inr sent ->
  fetchImpl (outbound_call sent).1 (outbound_call sent).2 = Some upstream ->
  1 <= maxCaptures store ->
  record_uuid d ∉ entry_id <$> captures store ->
  record_uuid d <> "" ->
  exists reply store',
    proxy d request store = Some (reply, store', [outbound_call sent])
    /\ forall (fetchAgain : string -> FetchInit -> option Upstream) (d2 : Draws),
         exists reply2 store2,
           replay_route JSON_parse JSON_stringify_pretty redactText fetchAgain d2
             (Some (mkReplayRequest (Some (record_uuid d)) None)) store'
           = Some (reply2, store2, [outbound_call sent]).
Proof.
  intros Hb Hfetch Hmx Hfresh Hid. unfold proxy_route, proxyToTarget, withCapture.
  rewrite Hb, Hfetch, add_closed by lia.
  eexists _, _. split; [reflexivity|].
  intros fetchAgain d2. unfold replay_route, proxyToTarget, withCapture.
  cbn [mbind option_bind rq_id rq_overrides].
  destruct (record_uuid d) as [|c i] eqn:Hrid; [done|]. cbn [JsString.truthy negb].
  rewrite getReplaySource_typed. cbn [byId]. rewrite <- Hrid in *.
  match goal with |- context [mkEntry ?r sent :: captures store] =>
    pose proof (new_pair_stays_indexed r sent store Hmx Hfresh) as Hget end.
  cbn [rec_id] in Hget |- *. rewrite Hget. cbn [fmap option_fmap option_map replay].
  rewrite (proj1 (merge_no_overrides sent)).
  destruct (fetchAgain _ _) as [again|]; [|by eexists _, _].
  rewrite add_closed by (cbn [maxCaptures]; lia). by eexists _, _.
Qed.

End RouteFactsFurther.

(** ** The further route properties on sample collaborators *)

Lemma sample_build :
  buildReplaySourceFromRequest (fun _ => "") (fun _ => "") sample_URL_parse
    sample_set_pathname sample_URL_toString sample_draws request_with_target
  = inr sample_replay.
Proof. vm_compute. reflexivity. Qed.

Lemma sample_fresh : record_uuid sample_draws ∉ entry_id <$> captures store_one.
Proof. cbn. rewrite list_elem_of_singleton. discriminate. Qed.

Lemma proxy_forwards_no_hop_by_hop_witness :
  proxy_route (fun _ => None) (fun _ => "") (fun _ => "") (fun _ => "") (fun t => t)
    sample_URL_parse sample_set_pathname sample_URL_toString "Invalid URL"
    fetch_unreachable sample_draws request_with_target store_one
  = Some (gateway_error, store_one, [outbound_call sample_replay])
  /\ (length [outbound_call sample_replay] <= 1)%nat
  /\ forall call k,
       call ∈ [outbound_call sample_replay] ->
       hopByHop_has (JsString.toLowerCase k) = true ->
       init_headers call.2 !! k = None.
Proof.
  assert (proxy_route (fun _ => None) (fun _ => "") (fun _ => "") (fun _ => "") (fun t => t)
            sample_URL_parse sample_set_pathname sample_URL_toString "Invalid URL"
            fetch_unreachable sample_draws request_with_target store_one
          = Some (gateway_error, store_one, [outbound_call sample_replay])) as Hrun.
  { unfold proxy_route. rewrite sample_build. reflexivity. }
  split; [exact Hrun|].
  exact (proxy_forwards_no_hop_by_hop (fun _ => None) (fun _ => "") (fun _ => "")
           (fun _ => "") (fun t => t) sample_URL_parse sample_set_pathname
           sample_URL_toString "Invalid URL" fetch_unreachable sample_draws
           request_with_target store_one gateway_error store_one
           [outbound_call sample_replay] Hrun).
Defined.

Lemma unparsable_target_rejected_witness :
  sample_URL_parse_absolute (req_url request_without_target) (Some "http://localhost")
  = Some (mkURL "http://localhost" "/proxy/v1/messages" [] "")
  /\ (<[ "x-proxylab-target" := HString "not a url" ]> (req_headers request_without_target)
        !! "x-proxylab-target" = Some (HString "not a url"))
  /\ "not a url" <> ""
  /\ sample_URL_parse_absolute "not a url" None = None
  /\ proxy_route (fun _ => None) (fun _ => "") (fun _ => "") (fun _ => "") (fun t => t)
       sample_URL_parse_absolute sample_set_pathname sample_URL_toString "Invalid URL"
       fetch_answers sample_draws
       (mkRequest "POST" (Some "v1/messages") "/proxy/v1/messages"
          (<[ "x-proxylab-target" := HString "not a url" ]>
             (req_headers request_without_target)) BodyUndefined)
       store_one
     = Some (Send 400 ∅ (ErrorBody "Invalid URL"), store_one, []).
Proof.
  split; [reflexivity|]. split; [reflexivity|]. split; [discriminate|].
  split; [reflexivity|].
  apply (unparsable_target_rejected (fun _ => None) (fun _ => "") (fun _ => "")
           (fun _ => "") (fun t => t) sample_URL_parse_absolute sample_set_pathname
           sample_URL_toString "Invalid URL" fetch_answers sample_draws
           (mkRequest "POST" (Some "v1/messages") "/proxy/v1/messages"
              (<[ "x-proxylab-target" := HString "not a url" ]>
                 (req_headers request_without_target)) BodyUndefined)
           store_one (mkURL "http://localhost" "/proxy/v1/messages" [] "") "not a url");
    [reflexivity|left; reflexivity|discriminate|reflexivity].
Defined.

Lemma target_header_shadows_query_witness :
  sample_URL_parse
    (req_url (mkRequest "POST" None "/proxy/" {[ "x-proxylab-target" := HString "" ]}
                BodyUndefined))
    (Some "http://localhost")
  = Some (mkURL "http://localhost" "/proxy/" [] "")
  /\ (req_headers
        (mkRequest "POST" None "/proxy/" {[ "x-proxylab-target" := HString "" ]} BodyUndefined)
        !! "x-proxylab-target" = Some (HString "") ->
      forall store,
        proxy_route (fun _ => None) (fun _ => "") (fun _ => "") (fun _ => "") (fun t => t)
          sample_URL_parse sample_set_pathname sample_URL_toString "Invalid URL"
          fetch_answers sample_draws
          (mkRequest "POST" None "/proxy/" {[ "x-proxylab-target" := HString "" ]}
             BodyUndefined)
          store
        = Some (Send 400 ∅
                  (ErrorBody
                     "Missing target URL. Set x-proxylab-target header or target query."),
                store, [])).
Proof.
  split; [reflexivity|].
  apply (target_header_shadows_query (fun _ => None) (fun _ => "") (fun _ => "")
           (fun _ => "") (fun t => t) sample_URL_parse sample_set_pathname
           sample_URL_toString "Invalid URL" fetch_answers sample_draws
           (mkRequest "POST" None "/proxy/" {[ "x-proxylab-target" := HString "" ]}
              BodyUndefined)
           (mkURL "http://localhost" "/proxy/" [] "")).
  reflexivity.
Defined.

Lemma get_and_head_carry_no_body_witness :
  buildReplaySourceFromRequest (fun _ => "") (fun _ => "") sample_URL_parse
    sample_set_pathname sample_URL_toString sample_draws get_request_with_body
  = inr (mkReplay "uuid-source" "GET" "https://api.example.com/v1/models" "/v1/models"
           ∅ (Some "ignored"))
  /\ init_method
       (outbound_call
          (mkReplay "uuid-source" "GET" "https://api.example.com/v1/models" "/v1/models"
             ∅ (Some "ignored"))).2
     = JsString.toUpperCase (req_method get_request_with_body)
  /\ (JsString.toUpperCase (req_method get_request_with_body) = "GET"
      \/ JsString.toUpperCase (req_method get_request_with_body) = "HEAD" ->
      init_body
        (outbound_call
           (mkReplay "uuid-source" "GET" "https://api.example.com/v1/models" "/v1/models"
              ∅ (Some "ignored"))).2 = None).
Proof.
  assert (buildReplaySourceFromRequest (fun _ => "") (fun _ => "") sample_URL_parse
            sample_set_pathname sample_URL_toString sample_draws get_request_with_body
          = inr (mkReplay "uuid-source" "GET" "https://api.example.com/v1/models"
                   "/v1/models" ∅ (Some "ignored"))) as Hb by (vm_compute; reflexivity).
  split; [exact Hb|].
  destruct (get_and_head_carry_no_body (fun _ => "") (fun _ => "") sample_URL_parse
              sample_set_pathname sample_URL_toString sample_draws get_request_with_body
              _ Hb) as (Hm & Hget & _).
  split; [exact Hm|exact Hget].
Defined.


Lemma replay_reissues_proxied_call_witness :
  buildReplaySourceFromRequest (fun _ => "") (fun _ => "") sample_URL_parse
    sample_set_pathname sample_URL_toString sample_draws request_with_target
  = inr sample_replay
  /\ fetch_answers (outbound_call sample_replay).1 (outbound_call sample_replay).2
     = Some (mkUpstream 200 ∅ "ok")
  /\ 1 <= maxCaptures store_one
  /\ (record_uuid sample_draws ∉ entry_id <$> captures store_one)
  /\ record_uuid sample_draws <> ""
  /\ exists reply store',
       proxy_route (fun _ => None) (fun _ => "") (fun _ => "") (fun _ => "") (fun t => t)
         sample_URL_parse sample_set_pathname sample_URL_toString "Invalid URL"
         fetch_answers sample_draws request_with_target store_one
       = Some (reply, store', [outbound_call sample_replay])
       /\ forall (fetchAgain : string -> FetchInit -> option Upstream) (d2 : Draws),
            exists reply2 store2,
              replay_route (fun _ => None) (fun _ => "") (fun t => t) fetchAgain d2
                (Some (mkReplayRequest (Some (record_uuid sample_draws)) None)) store'
              = Some (reply2, store2, [outbound_call sample_replay]).
Proof.
  split; [exact sample_build|]. split; [reflexivity|]. split; [cbn; lia|].
  split; [exact sample_fresh|]. split; [discriminate|].
  apply (replay_reissues_proxied_call (fun _ => None) (fun _ => "") (fun _ => "")
           (fun _ => "") (fun t => t) sample_URL_parse sample_set_pathname
           sample_URL_toString "Invalid URL" fetch_answers sample_draws
           request_with_target store_one sample_replay (mkUpstream 200 ∅ "ok"));
    [exact sample_build|reflexivity|cbn; lia|exact sample_fresh|discriminate].
Defined.

(** ** Snippet escaping *)

Lemma sh_read_escaped (s : string) :
  sh_read true (escapeShell s +:+ "'") = Some s.
Proof.
  unfold escapeShell. induction s as [|c s IH]; [reflexivity|].
  cbn [replace_char]. destruct (Ascii.eqb_spec c "'") as [->|Hc].
  - change (("'\''" +:+ replace_char "'" "'\''" s) +:+ "'")
      with (String "'" (String "\" (String "'" (String "'"
              (replace_char "'" "'\''" s +:+ "'"))))).
    cbn [sh_read Ascii.eqb Bool.eqb]. cbn. by rewrite IH.
  - change (String c (replace_char "'" "'\''" s) +:+ "'")
      with (String c (replace_char "'" "'\''" s +:+ "'")).
    cbn [sh_read]. apply Ascii.eqb_neq in Hc. by rewrite Hc, IH.
Qed.

(** X21. A shell reads a value escaped by [escapeShell] and put between
    single quotes, as the curl snippet does with the URL, the headers and
    the body, as one word that is the value itself. *)
Theorem escapeShell_round_trip (value : string) :
  sh_read false ("'" +:+ escapeShell value +:+ "'") = Some value.
Proof.
  change ("'" +:+ escapeShell value +:+ "'") with (String "'" (escapeShell value +:+ "'")).
  cbn [sh_read]. change (Ascii.eqb "'" "'") with true. cbn match.
  apply sh_read_escaped.
Qed.

Lemma escapeJs_cons (c : ascii) (s : string) :
  escapeJs (String c s)
  = if Ascii.eqb c "\" then String "\" (String "\" (escapeJs s))
    else if Ascii.eqb c "`" then String "\" (String "`" (escapeJs s))
    else String c (escapeJs s).
Proof.
  unfold escapeJs. cbn [replace_char].
  destruct (Ascii.eqb_spec c "\") as [->|Hb].
  - reflexivity.
  - cbn [replace_char]. destruct (Ascii.eqb_spec c "`") as [->|Ht]; reflexivity.
Qed.

Lemma escapeJs_brace (s : string) :
  JsString.startsWith "{" (escapeJs s) = JsString.startsWith "{" s.
Proof.
  destruct s as [|c s]; [reflexivity|]. rewrite escapeJs_cons.
  destruct (Ascii.eqb_spec c "\") as [->|Hb]; [reflexivity|].
  destruct (Ascii.eqb_spec c "`") as [->|Ht]; reflexivity.
Qed.

(** X22. A value escaped by [escapeJs] and read back as the text of a
    template literal, as the fetch snippet writes the body, is the value
    itself, provided the value holds no [$] in front of an opening brace
    and no carriage return. *)
Theorem escapeJs_round_trip (value : string) :
  JsString.includes "${" value = false ->
  JsString.includes (String (ascii_of_nat 13) "") value = false ->
  template_read (escapeJs value) = Some value.
Proof.
  induction value as [|c s IH]; [reflexivity|].
  intros Hsub Hcr.
  change (JsString.includes "${" (String c s))
    with ((if Ascii.eqb "$" c then JsString.startsWith "{" s else false)
          || JsString.includes "${" s) in Hsub.
  change (JsString.includes (String (ascii_of_nat 13) "") (String c s))
    with ((if Ascii.eqb (ascii_of_nat 13) c then JsString.startsWith "" s else false)
          || JsString.includes (String (ascii_of_nat 13) "") s) in Hcr.
  apply orb_false_iff in Hsub as [Hhere Hsub]. apply orb_false_iff in Hcr as [Hcr0 Hcr].
  specialize (IH Hsub Hcr). rewrite escapeJs_cons.
  destruct (Ascii.eqb_spec c "\") as [->|Hb].
  - cbn [template_read]. change (Ascii.eqb "\" "\") with true. cbn match.
    cbn [orb]. by rewrite IH.
  - destruct (Ascii.eqb_spec c "`") as [->|Ht].
    + cbn [template_read]. change (Ascii.eqb "\" "\") with true.
      change (Ascii.eqb "`" "\") with false. change (Ascii.eqb "`" "`") with true.
      cbn match. cbn [orb]. by rewrite IH.
    + cbn [template_read]. apply Ascii.eqb_neq in Hb, Ht. rewrite Hb, Ht. cbn [orb].
      destruct (Ascii.eqb_spec c (ascii_of_nat 13)) as [->|Hr].
      * by destruct s.
      * rewrite escapeJs_brace. rewrite (Ascii.eqb_sym c "$").
        destruct (Ascii.eqb "$" c); [rewrite Hhere|]; cbn [andb]; by rewrite IH.
Qed.

Lemma escapeJs_round_trip_witness :
  JsString.includes "${" "a\b`c $ {d}" = false
  /\ JsString.includes (String (ascii_of_nat 13) "") "a\b`c $ {d}" = false
  /\ template_read (escapeJs "a\b`c $ {d}") = Some "a\b`c $ {d}".
Proof.
  split; [reflexivity|]. split; [reflexivity|].
  apply (escapeJs_round_trip "a\b`c $ {d}"); reflexivity.
Defined.

(** ** Adding to the file-backed store and starting again *)

Section RestartFacts.

Variable number_of_Z : Z -> spec_float.
Variable Object_entries : gmap string string -> list (string * string).
Variable JSON_stringify_pretty : json -> string.
Variable JSON_parse : string -> option json.

(** X23. An [add] on the file-backed store writes the file; a store
    constructed from that file with the same capacity, the parser reading
    back what the printer wrote, lists before any [add] of its own the
    records the first store lists after its [add], in the same order. *)
Theorem add_then_restart (r : CaptureRecord) (p : ReplaySource)
    (s : Store StoredCapture) (file : File) :
  0 <= maxCaptures s ->
  (forall s',
     add r p s = Some (Normal, s') ->
     JSON_parse (JSON_stringify_pretty (snapshot number_of_Z Object_entries s'))
     = Some (snapshot number_of_Z Object_entries s')) ->
  exists s' file' s2,
    FileCaptureStore_add number_of_Z Object_entries JSON_stringify_pretty r p s file
    = Some (Normal, s', file')
    /\ FileCaptureStore JSON_parse file' (Some (maxCaptures s)) = Some s2
    /\ list_records s' = Some ((fun e => Some (record e)) <$> captures s')
    /\ list_records s2
       = Some ((fun e => Some (json_of_record number_of_Z Object_entries (record e)))
                 <$> captures s')
    /\ head (captures s')
       = (if Z.eqb (maxCaptures s) 0 then None else Some (mkEntry r p)).
Proof.
  intros Hmx Hrt. unfold FileCaptureStore_add.
  specialize (Hrt _ (add_closed r p s Hmx)). rewrite add_closed by done.
  set (s' := mkStore _ _ _) in *. eexists s', _, _. split; [reflexivity|].
  assert (Forall (string_keyed (E:=json))
            (json_of_entry number_of_Z Object_entries <$> captures s')) as Hk.
  { apply Forall_fmap, Forall_forall. intros e _. split; [done|]. by exists (entry_id e). }
  unfold persist.
  rewrite (load_closed _ _ _ (Some (maxCaptures s)) Hrt Hmx Hk).
  change (default default_maxCaptures (Some (maxCaptures s))) with (maxCaptures s).
  split; [reflexivity|]. split; [apply list_records_typed|]. split.
  - rewrite list_records_string_keyed.
    + cbn [persisted_captures snapshot prop assoc String.eqb Ascii.eqb Bool.eqb default].
      rewrite take_ge.
      * by rewrite <- list_fmap_compose.
      * rewrite length_fmap. unfold s'. cbn [captures]. rewrite length_take. lia.
    + by apply Forall_take.
  - unfold s'. cbn [captures]. destruct (Z.eqb_spec (maxCaptures s) 0) as [->|Hne]; [done|].
    destruct (Z.to_nat (maxCaptures s)) as [|n] eqn:Hn; [lia|done].
Qed.

End RestartFacts.

Lemma store_one_add_two :
  add (makeCapture "two") makeReplay store_one = Some (Normal, store_two).
Proof. rewrite add_closed by (cbn; lia). vm_compute. reflexivity. Qed.

Lemma add_then_restart_witness :
  0 <= maxCaptures store_one
  /\ (forall s',
        add (makeCapture "two") makeReplay store_one = Some (Normal, s') ->
        (fun _ : string => Some (snapshot (fun _ => one) map_to_list store_two))
          ((fun _ : json => "file") (snapshot (fun _ => one) map_to_list s'))
        = Some (snapshot (fun _ => one) map_to_list s'))
  /\ exists s' file' s2,
       FileCaptureStore_add (fun _ => one) map_to_list (fun _ => "file")
         (makeCapture "two") makeReplay store_one Absent
       = Some (Normal, s', file')
       /\ FileCaptureStore (fun _ => Some (snapshot (fun _ => one) map_to_list store_two))
            file' (Some (maxCaptures store_one)) = Some s2
       /\ list_records s2
          = Some ((fun e => Some (json_of_record (fun _ => one) map_to_list (record e)))
                    <$> captures s').
Proof.
  assert (forall s',
            add (makeCapture "two") makeReplay store_one = Some (Normal, s') ->
            (fun _ : string => Some (snapshot (fun _ => one) map_to_list store_two))
              ((fun _ : json => "file") (snapshot (fun _ => one) map_to_list s'))
            = Some (snapshot (fun _ => one) map_to_list s')) as Hrt.
  { intros s' Hadd. rewrite store_one_add_two in Hadd. by injection Hadd as <-. }
  split; [cbn; lia|]. split; [exact Hrt|].
  destruct (add_then_restart (fun _ => one) map_to_list (fun _ => "file")
              (fun _ => Some (snapshot (fun _ => one) map_to_list store_two))
              (makeCapture "two") makeReplay store_one Absent)
    as (s' & file' & s2 & Hadd & Hload & _ & Hlist & _); [cbn; lia|exact Hrt|].
  exists s', file', s2. split; [exact Hadd|]. split; [exact Hload|exact Hlist].
Defined.
